(** * Root-finding methods of [metodos_cap2.py]

    A shallow embedding of the five iterative methods of the module
    ([bisseccao], [regula_falsi], [iterativo_linear], [newton], [secante])
    together with the properties their specification states.

    The methods are written once over an arithmetic interface [Arith] that
    lists the operations the Python text applies to its numbers.  Two
    instances are given: IEEE binary64 floats, which is what CPython
    computes with, and exact rationals, the arithmetic in which the
    statement "the bracket is halved" is meant.  Everything else is proved
    for every instance, binary64 included; where a property depends on the
    signs of computed products, that dependence is a hypothesis on the
    values of the run. *)

From Stdlib Require Import Ascii String.
From Stdlib Require Import NArith ZArith QArith Qabs List Bool Lia Lqa Floats.
From Stdlib Require Import Permutation Sorted DecimalString.
Import ListNotations.

Set Implicit Arguments.

(** ** Exceptions and the result monad *)

(** The texts of the exceptions the module raises. *)
Inductive message : Type :=
| msg_avaliar            (* safe_eval: "Erro ao avaliar expressão ..." *)
| msg_bisseccao_sinais   (* "Bissecção requer f(a) e f(b) de sinais opostos." *)
| msg_regula_sinais      (* "Regula Falsi requer f(a) e f(b) de sinais opostos." *)
| msg_derivada_zero      (* "Derivada zero no método de Newton." *)
| msg_denominador_zero   (* "Denominador zero no método da Secante." *)
| msg_float_division.    (* raised by Python's own [/]: "float division by zero" *)

(** A Python exception: its class and its text. *)
Inductive exn : Type :=
| ValueError (m : message)
| ZeroDivisionError (m : message).

(** The error taxonomy of the specification. *)
Inductive error_kind : Type :=
| PreconditionError
| NumericError
| EvaluationError.

Definition classify (e : exn) : error_kind :=
  match e with
  | ValueError msg_avaliar => EvaluationError
  | ValueError _ => PreconditionError
  | ZeroDivisionError _ => NumericError
  end.

Inductive result (T : Type) : Type :=
| Ok (v : T)
| Raise (e : exn).

Arguments Ok {T} v.
Arguments Raise {T} e.

Definition bind {T U : Type} (c : result T) (k : T -> result U) : result U :=
  match c with
  | Ok v => k v
  | Raise e => Raise e
  end.

Notation "x <- c ;; k" := (bind c (fun x => k))
  (at level 61, c at next level, right associativity).

(** [raises_kind r kd]: the call ended in an exception of kind [kd]. *)
Definition raises_kind {T : Type} (r : result T) (kd : error_kind) : Prop :=
  exists e, r = Raise e /\ classify e = kd.

(** ** The [for k in range(1, int(max_iter) + 1)] loop

    A loop body receives the index [k] and the local variables, and either
    raises or yields the record it appends to [rows] together with the way
    it leaves the iteration: [Break] for the [break] statement, [Continue]
    for falling through to the next index, each with the locals as they
    are at that point.  [rows] is only ever appended to and returned, so
    the loop is modelled as producing the appended records in order; an
    exception discards them, as it does in Python. *)
Inductive ctl (S : Type) : Type :=
| Break (s : S)
| Continue (s : S).

Arguments Break {S} s.
Arguments Continue {S} s.

Section Loop.
Variables St R : Type.
Variable body : Z -> St -> result (R * ctl St).

Fixpoint for_range (n : nat) (k : Z) (s : St) : result (list R) :=
  match n with
  | O => Ok []
  | S n' =>
      match body k s with
      | Raise e => Raise e
      | Ok (r, Break _) => Ok [r]
      | Ok (r, Continue s') =>
          rs <- for_range n' (k + 1) s' ;; Ok (r :: rs)
      end
  end.

(** The locals at the start of the iteration that follows [n] completed,
    non-breaking iterations; [None] when the loop has stopped before. *)
Fixpoint locals_after (n : nat) (k : Z) (s : St) : option St :=
  match n with
  | O => Some s
  | S n' =>
      match body k s with
      | Ok (_, Continue s') => locals_after n' (k + 1) s'
      | _ => None
      end
  end.

(** [s'] are the locals at the start of one of the (at most [n])
    iterations the loop runs from index [k] and locals [s]. *)
Definition reaches (n : nat) (k : Z) (s s' : St) : Prop :=
  exists j, (j < n)%nat /\ locals_after j k s = Some s'.
End Loop.

(** ** Arithmetic *)

(** The operations the module applies to numbers.  [div] is the quotient
    for a non-zero divisor; Python's check of the divisor is [py_div]. *)
Class Arith (F : Type) : Type := {
  add : F -> F -> F;
  sub : F -> F -> F;
  mul : F -> F -> F;
  div : F -> F -> F;
  abs : F -> F;
  ltb : F -> F -> bool;
  eqb : F -> F -> bool;
  zero : F;
  two : F
}.

Declare Scope py_scope.
Delimit Scope py_scope with py.
Infix "+" := add : py_scope.
Infix "-" := sub : py_scope.
Infix "*" := mul : py_scope.
Infix "<?" := ltb : py_scope.
Infix "==?" := eqb (at level 70, no associativity) : py_scope.

(** binary64, as CPython's [float]. *)
#[export] Instance float_arith : Arith float := {|
  add := PrimFloat.add;
  sub := PrimFloat.sub;
  mul := PrimFloat.mul;
  div := PrimFloat.div;
  abs := PrimFloat.abs;
  ltb := PrimFloat.ltb;
  eqb := PrimFloat.eqb;
  zero := 0%float;
  two := 2%float
|}.

(** Exact rational arithmetic. *)
#[export] Instance Q_arith : Arith Q := {|
  add := Qplus;
  sub := Qminus;
  mul := Qmult;
  div := Qdiv;
  abs := Qabs;
  ltb := fun x y => negb (Qle_bool y x);
  eqb := Qeq_bool;
  zero := 0%Q;
  two := 2%Q
|}.

(** ** The methods *)

Section Methods.
Context {F : Type} {A : Arith F}.
Local Open Scope py_scope.

(** An expression string, seen through [eval] with [x] bound and the
    [float(...)] conversion: [None] when that raises. *)
Definition expr : Type := F -> option F.

Definition safe_eval (e : expr) (x : F) : result F :=
  match e x with
  | Some y => Ok y
  | None => Raise (ValueError msg_avaliar)
  end.

(** Python's [x / y] on floats. *)
Definition py_div (x y : F) : result F :=
  if y ==? zero then Raise (ZeroDivisionError msg_float_division)
  else Ok (div x y).

(** *** Bisection and regula falsi *)

Record bracket_locals : Type := {
  l_a : F;
  l_b : F;
  l_fa : F;
  l_fb : F;
  l_x_prev : option F
}.

(** Keys "iter", "a", "b", "x", "f(x)", "erro"; [None] in [br_erro] is
    the [float("nan")] of the first iteration. *)
Record bracket_row : Type := {
  br_iter : Z;
  br_a : F;
  br_b : F;
  br_x : F;
  br_fx : F;
  br_erro : option F
}.

(** [abs(c - x_prev) < tol], guarded by [x_prev is not None]. *)
Definition step_small (c : F) (x_prev : option F) (tol : F) : bool :=
  match x_prev with
  | Some xp => abs (c - xp) <? tol
  | None => false
  end.

(** What both bracketing loops do once the estimate [c] is known. *)
Definition bracket_rest (f : expr) (tol : F) (k : Z) (s : bracket_locals)
    (c : F) : result (bracket_row * ctl bracket_locals) :=
  fc <- safe_eval f c ;;
  let err := match l_x_prev s with
             | Some xp => Some (abs (c - xp))
             | None => None
             end in
  let row := {| br_iter := k; br_a := l_a s; br_b := l_b s; br_x := c;
                br_fx := fc; br_erro := err |} in
  if (abs fc <? tol) || step_small c (l_x_prev s) tol then
    Ok (row, Break s)
  else if l_fa s * fc <? zero then
    Ok (row, Continue {| l_a := l_a s; l_b := c; l_fa := l_fa s;
                         l_fb := fc; l_x_prev := Some c |})
  else
    Ok (row, Continue {| l_a := c; l_b := l_b s; l_fa := fc;
                         l_fb := l_fb s; l_x_prev := Some c |}).

(** [c = (a + b) / 2.0]: the divisor is the literal 2.0, never zero. *)
Definition bisseccao_body (f : expr) (tol : F) (k : Z) (s : bracket_locals)
    : result (bracket_row * ctl bracket_locals) :=
  let c := div (l_a s + l_b s) two in
  bracket_rest f tol k s c.

(** [c = b - fb * (b - a) / (fb - fa)]. *)
Definition regula_falsi_body (f : expr) (tol : F) (k : Z)
    (s : bracket_locals) : result (bracket_row * ctl bracket_locals) :=
  q <- py_div (l_fb s * (l_b s - l_a s)) (l_fb s - l_fa s) ;;
  let c := l_b s - q in
  bracket_rest f tol k s c.

Definition bisseccao (f : expr) (a b tol : F) (max_iter : Z)
    : result (list bracket_row) :=
  fa <- safe_eval f a ;;
  fb <- safe_eval f b ;;
  if zero <? fa * fb then Raise (ValueError msg_bisseccao_sinais)
  else for_range (bisseccao_body f tol) (Z.to_nat max_iter) 1
         {| l_a := a; l_b := b; l_fa := fa; l_fb := fb; l_x_prev := None |}.

Definition regula_falsi (f : expr) (a b tol : F) (max_iter : Z)
    : result (list bracket_row) :=
  fa <- safe_eval f a ;;
  fb <- safe_eval f b ;;
  if zero <? fa * fb then Raise (ValueError msg_regula_sinais)
  else for_range (regula_falsi_body f tol) (Z.to_nat max_iter) 1
         {| l_a := a; l_b := b; l_fa := fa; l_fb := fb; l_x_prev := None |}.

(** *** Fixed-point iteration *)

(** Keys "iter", "x", "g(x_prev)", "erro". *)
Record linear_row : Type := {
  lr_iter : Z;
  lr_x : F;
  lr_g_x_prev : F;
  lr_erro : F
}.

Definition iterativo_linear_body (g : expr) (tol : F) (k : Z) (x_prev : F)
    : result (linear_row * ctl F) :=
  x <- safe_eval g x_prev ;;
  let err := abs (x - x_prev) in
  let row := {| lr_iter := k; lr_x := x; lr_g_x_prev := x; lr_erro := err |} in
  if err <? tol then Ok (row, Break x_prev) else Ok (row, Continue x).

Definition iterativo_linear (g : expr) (x0 tol : F) (max_iter : Z)
    : result (list linear_row) :=
  for_range (iterativo_linear_body g tol) (Z.to_nat max_iter) 1 x0.

(** *** Newton *)

(** Keys "iter", "x", "f(x)", "f'(x)", "erro". *)
Record newton_row : Type := {
  nr_iter : Z;
  nr_x : F;
  nr_fx : F;
  nr_dfx : F;
  nr_erro : F
}.

Definition newton_body (f df : expr) (tol : F) (k : Z) (x : F)
    : result (newton_row * ctl F) :=
  fx <- safe_eval f x ;;
  dfx <- safe_eval df x ;;
  if dfx ==? zero then Raise (ZeroDivisionError msg_derivada_zero)
  else
    q <- py_div fx dfx ;;
    let x_new := x - q in
    let err := abs (x_new - x) in
    let row := {| nr_iter := k; nr_x := x_new; nr_fx := fx; nr_dfx := dfx;
                  nr_erro := err |} in
    if (abs fx <? tol) || (err <? tol) then Ok (row, Break x_new)
    else Ok (row, Continue x_new).

Definition newton (f df : expr) (x0 tol : F) (max_iter : Z)
    : result (list newton_row) :=
  for_range (newton_body f df tol) (Z.to_nat max_iter) 1 x0.

(** *** Secant *)

Record secante_locals : Type := {
  s_x_prev : F;
  s_x : F;
  s_f_prev : F;
  s_fx : F
}.

(** Keys "iter", "x_{k-1}", "x_k", "x_{k+1}", "f(x_k)", "erro". *)
Record secante_row : Type := {
  sr_iter : Z;
  sr_x_km1 : F;
  sr_x_k : F;
  sr_x_kp1 : F;
  sr_f_x_k : F;
  sr_erro : F
}.

Definition secante_body (f : expr) (tol : F) (k : Z) (s : secante_locals)
    : result (secante_row * ctl secante_locals) :=
  let denom := s_fx s - s_f_prev s in
  if denom ==? zero then Raise (ZeroDivisionError msg_denominador_zero)
  else
    q <- py_div (s_fx s * (s_x s - s_x_prev s)) denom ;;
    let x_new := s_x s - q in
    let err := abs (x_new - s_x s) in
    let row := {| sr_iter := k; sr_x_km1 := s_x_prev s; sr_x_k := s_x s;
                  sr_x_kp1 := x_new; sr_f_x_k := s_fx s; sr_erro := err |} in
    if (abs (s_fx s) <? tol) || (err <? tol) then
      Ok (row, Break {| s_x_prev := s_x_prev s; s_x := x_new;
                        s_f_prev := s_f_prev s; s_fx := s_fx s |})
    else
      f_new <- safe_eval f x_new ;;
      Ok (row, Continue {| s_x_prev := s_x s; s_x := x_new;
                           s_f_prev := s_fx s; s_fx := f_new |}).

Definition secante (f : expr) (x0 x1 tol : F) (max_iter : Z)
    : result (list secante_row) :=
  f_prev <- safe_eval f x0 ;;
  fx <- safe_eval f x1 ;;
  for_range (secante_body f tol) (Z.to_nat max_iter) 1
    {| s_x_prev := x0; s_x := x1; s_f_prev := f_prev; s_fx := fx |}.
End Methods.

(** ** Notions used in the statements *)

Section Notions.
Context {F : Type} {A : Arith F}.
Local Open Scope py_scope.

(** The locals with which each method enters its loop. *)
Definition bracket_start (a b fa fb : F) : bracket_locals :=
  {| l_a := a; l_b := b; l_fa := fa; l_fb := fb; l_x_prev := None |}.

Definition secante_start (x0 x1 f_prev fx : F) : secante_locals :=
  {| s_x_prev := x0; s_x := x1; s_f_prev := f_prev; s_fx := fx |}.

(** A run of [regula_falsi] passes the sign test and starts an iteration
    with locals [s]. *)
Definition regula_falsi_reaches (f : expr) (a b tol : F) (max_iter : Z)
    (s : bracket_locals) : Prop :=
  exists fa fb,
    f a = Some fa /\ f b = Some fb /\ (zero <? fa * fb) = false /\
    reaches (regula_falsi_body f tol) (Z.to_nat max_iter) 1
      (bracket_start a b fa fb) s.






(** [x] and [y] are one strictly negative, the other strictly positive. *)
Definition opposite_signs (x y : F) : Prop :=
  ((x <? zero) = true /\ (zero <? y) = true) \/
  ((zero <? x) = true /\ (y <? zero) = true).

(** The computed product [x * y] tests negative exactly when its factors
    have opposite signs.  In binary64 this fails when the product
    underflows to a zero, and when a factor is NaN. *)
Definition product_sign_exact (x y : F) : Prop :=
  (x * y <? zero) = true <-> opposite_signs x y.

(** At locals [s] and estimate [c], the products that the loop forms from
    [fa], [fb] and [fc = f(c)] have the signs of their factors, and a value
    [fc] that does not pass [abs(fc) < tol] for a positive [tol] has a
    strict sign (it is not NaN). *)
Definition signs_exact (f : expr) (tol : F) (s : bracket_locals) (c : F)
    : Prop :=
  forall fc, f c = Some fc ->
    product_sign_exact (l_fa s) (l_fb s) /\
    product_sign_exact (l_fa s) fc /\
    product_sign_exact fc (l_fb s) /\
    ((zero <? tol) = true -> (abs fc <? tol) = false ->
     (fc <? zero) = true \/ (zero <? fc) = true).



(** A run of [newton] starts an iteration with the iterate [x]. *)
Definition newton_reaches (f df : expr) (x0 tol : F) (max_iter : Z) (x : F)
    : Prop :=
  reaches (newton_body f df tol) (Z.to_nat max_iter) 1 x0 x.

(** A run of [secante] evaluates both initial guesses and starts an
    iteration with locals [s]. *)
Definition secante_reaches (f : expr) (x0 x1 tol : F) (max_iter : Z)
    (s : secante_locals) : Prop :=
  exists f_prev fx,
    f x0 = Some f_prev /\ f x1 = Some fx /\
    reaches (secante_body f tol) (Z.to_nat max_iter) 1
      (secante_start x0 x1 f_prev fx) s.

(** The new estimate [x_new] of a secant iteration and its stopping test
    [abs(fx) < tol or err < tol], as functions of the locals. *)
Definition secante_estimate (s : secante_locals) : F :=
  s_x s - div (s_fx s * (s_x s - s_x_prev s)) (s_fx s - s_f_prev s).

Definition secante_stops (tol : F) (s : secante_locals) : bool :=
  (abs (s_fx s) <? tol) || (abs (secante_estimate s - s_x s) <? tol).


(** Valid inputs, method by method: every evaluation succeeds, the sign
    test passes, and no iteration the run starts meets a singularity. *)
Definition evaluates (f : @expr F) : Prop := forall x, f x <> None.

Definition sign_test_passes (f : expr) (a b : F) : Prop :=
  forall fa fb, f a = Some fa -> f b = Some fb -> (zero <? fa * fb) = false.

Definition bisseccao_valid (f : expr) (a b : F) : Prop :=
  evaluates f /\ sign_test_passes f a b.

Definition regula_falsi_valid (f : expr) (a b tol : F) (max_iter : Z)
    : Prop :=
  evaluates f /\ sign_test_passes f a b /\
  forall s, regula_falsi_reaches f a b tol max_iter s ->
            (l_fb s - l_fa s ==? zero) = false.

Definition newton_valid (f df : expr) (x0 tol : F) (max_iter : Z) : Prop :=
  evaluates f /\ evaluates df /\
  forall x d, newton_reaches f df x0 tol max_iter x -> df x = Some d ->
              (d ==? zero) = false.

Definition secante_valid (f : expr) (x0 x1 tol : F) (max_iter : Z) : Prop :=
  evaluates f /\
  forall s, secante_reaches f x0 x1 tol max_iter s ->
            (s_fx s - s_f_prev s ==? zero) = false.
End Notions.

(** A sequence of between 1 and [max_iter] records whose k-th record
    (counting from 1) carries [iter = k]. *)
Definition well_numbered {R : Type} (iter : R -> Z) (max_iter : Z)
    (rows : list R) : Prop :=
  (1 <= length rows)%nat /\
  (Z.of_nat (length rows) <= max_iter)%Z /\
  forall i r, nth_error rows i = Some r -> iter r = (Z.of_nat i + 1)%Z.

(** A call with valid inputs returns, and whatever it returns is well
    numbered. *)
Definition returns_well_numbered {R : Type} (iter : R -> Z) (max_iter : Z)
    (valid : Prop) (r : result (list R)) : Prop :=
  (valid -> exists rows, r = Ok rows) /\
  (forall rows, r = Ok rows -> well_numbered iter max_iter rows).

(** ** Notions about the recorded sequences *)

Section RowNotions.
Context {F : Type} {A : Arith F}.
Local Open Scope py_scope.

(** [rows] is what bisection or regula falsi returns on these inputs. *)
Definition bracket_returns (f : expr) (a b tol : F) (max_iter : Z)
    (rows : list bracket_row) : Prop :=
  bisseccao f a b tol max_iter = Ok rows \/
  regula_falsi f a b tol max_iter = Ok rows.

(** The stopping test of the bracketing loops, read off a record:
    [abs(fc) < tol or (x_prev is not None and abs(c - x_prev) < tol)]. *)
Definition bracket_row_converged (tol : F) (r : bracket_row) : bool :=
  (abs (br_fx r) <? tol) ||
  match br_erro r with
  | Some e => e <? tol
  | None => false
  end.

(** The stopping test of the secant loop, read off a record:
    [abs(fx) < tol or err < tol]. *)
Definition secante_row_converged (tol : F) (r : secante_row) : bool :=
  (abs (sr_f_x_k r) <? tol) || (sr_erro r <? tol).

(** The record [r] is the Newton step taken from the iterate [x]. *)
Definition newton_step_from (f df : expr) (x : F) (r : newton_row) : Prop :=
  f x = Some (nr_fx r) /\ df x = Some (nr_dfx r) /\
  (nr_dfx r ==? zero) = false /\
  nr_x r = x - div (nr_fx r) (nr_dfx r) /\
  nr_erro r = abs (nr_x r - x).

(** The record [r] is the secant step taken from the pair of estimates it
    records, with the true values of [f] at both and a difference of the
    two that fails the test [denom == 0]. *)
Definition secante_step (f : expr) (r : secante_row) : Prop :=
  exists f_prev,
    f (sr_x_km1 r) = Some f_prev /\ f (sr_x_k r) = Some (sr_f_x_k r) /\
    (sr_f_x_k r - f_prev ==? zero) = false /\
    sr_x_kp1 r =
      sr_x_k r - div (sr_f_x_k r * (sr_x_k r - sr_x_km1 r))
                     (sr_f_x_k r - f_prev) /\
    sr_erro r = abs (sr_x_kp1 r - sr_x_k r).
End RowNotions.

(** ** Sample inputs *)

(** [f = "x"]. *)
Definition f_x_Q : @expr Q := fun x => Some x.
Definition f_x_float : @expr float := fun x => Some x.

(** [f = "x^2 - 2"], [df = "2*x"]. *)
Definition f_sq2_Q : @expr Q := fun x => Some (x * x - 2)%Q.
Definition df_sq2_Q : @expr Q := fun x => Some (2 * x)%Q.

(** [f = "x^2 - 1"]. *)
Definition f_sq1_Q : @expr Q := fun x => Some (x * x - 1)%Q.

(** An expression that evaluates only for positive [x], as ["log(x)"]
    does; its value there is [x - 1]. *)
Definition f_positive_Q : @expr Q :=
  fun x => if negb (Qle_bool x 0) then Some (x - 1)%Q else None.

(** [f = "x*x"], with a double root at 0; its derivative is ["2*x"]. *)
Definition f_sq_Q : @expr Q := fun x => Some (x * x)%Q.

(** The constant expression ["1"]. *)
Definition f_one_Q : @expr Q := fun _ => Some 1%Q.

(** [g = "x/2 + 1"], whose fixed point is 2. *)
Definition g_half_Q : @expr Q := fun x => Some (x / 2 + 1)%Q.

(** [f = "x^2 - 1"], [f = "x^2 - 2"] and [g = "x/2 + 1"] in binary64. *)
Definition f_sq1_float : @expr float := fun x => Some (x * x - 1)%float.

(** [f = "inf if x else 0.0"]: a float is false exactly when it equals
    zero, so the value is 0 at 0 and infinite elsewhere, NaN included. *)
Definition f_inf_float : @expr float :=
  fun x => Some (if PrimFloat.eqb x 0 then 0 else infinity)%float.

(** The sequences returned on some of the sample inputs. *)
Definition rows_bisseccao_sq2 : list (@bracket_row Q) :=
  Eval vm_compute in
    match bisseccao f_sq2_Q 0 2 (1 # 10) 5 with
    | Ok rows => rows
    | Raise _ => []
    end.



Definition rows_regula_sq2 : list (@bracket_row Q) :=
  Eval vm_compute in
    match regula_falsi f_sq2_Q 0 2 (1 # 10) 5 with
    | Ok rows => rows
    | Raise _ => []
    end.

Definition rows_newton_sq2 : list (@newton_row Q) :=
  Eval vm_compute in
    match newton f_sq2_Q df_sq2_Q 1 (1 # 100) 6 with
    | Ok rows => rows
    | Raise _ => []
    end.

Definition rows_secante_sq2 : list (@secante_row Q) :=
  Eval vm_compute in
    match secante f_sq2_Q 1 2 (1 # 100) 10 with
    | Ok rows => rows
    | Raise _ => []
    end.

(** ** Text

    Python's [str] is a sequence of code points.  Which code points are
    white space (what [str.strip] removes) and which are decimal digits
    (what [\d] matches) is fixed by the Unicode tables of the interpreter,
    and [float(...)] of a string is the interpreter's too: the three are
    parameters of the parser below. *)

Definition char : Type := N.
Definition text : Type := list char.

Definition chr (a : ascii) : char := N_of_ascii a.

Fixpoint text_of (s : string) : text :=
  match s with
  | EmptyString => []
  | String a s' => chr a :: text_of s'
  end.

Definition text_eq_dec : forall s t : text, {s = t} + {s <> t} :=
  list_eq_dec N.eq_dec.

Fixpoint drop_while (p : char -> bool) (s : text) : text :=
  match s with
  | [] => []
  | c :: s' => if p c then drop_while p s' else s
  end.

(** [s.startswith(c)] and [s.endswith(c)] for a one-character [c]. *)
Definition starts_with (c : char) (s : text) : bool :=
  match s with
  | [] => false
  | x :: _ => N.eqb x c
  end.

Definition ends_with (c : char) (s : text) : bool :=
  starts_with c (rev s).

(** [c in s]. *)
Definition contains (c : char) (s : text) : bool :=
  existsb (N.eqb c) s.

(** [s.split(c, 1)] for a text that contains [c]: what stands before the
    first [c] and what stands after it. *)
Fixpoint split_first (c : char) (s : text) : text * text :=
  match s with
  | [] => ([], [])
  | x :: s' =>
      if N.eqb x c then ([], s')
      else let (before, after) := split_first c s' in (x :: before, after)
  end.

(** [s.split(c)]: the pieces between the occurrences of [c]; never an
    empty list. *)
Fixpoint split_on (c : char) (s : text) : list text :=
  match s with
  | [] => [[]]
  | x :: s' =>
      if N.eqb x c then [] :: split_on c s'
      else match split_on c s' with
           | piece :: pieces => (x :: piece) :: pieces
           | [] => [[x]]
           end
  end.

(** [s[1:-1]]. *)
Definition middle (s : text) : text := removelast (tl s).

(** [s.replace("^", "**")], the first step of [safe_eval]. *)
Definition caret_to_power (s : text) : text :=
  flat_map (fun c => if N.eqb c (chr "^") then [chr "*"; chr "*"] else [c]) s.

(** [safe_eval] on the expression text: [eval] (a parameter, with [x]
    bound and [float] applied) receives the text with [^] rewritten. *)
Definition safe_eval_text {F : Type} (py_eval : text -> F -> option F)
    (e : text) (x : F) : result F :=
  safe_eval (py_eval (caret_to_power e)) x.

(** *** Regular expressions

    Patterns without groups that capture or look around: a text matches
    under [re.fullmatch] exactly when it belongs to the language of the
    pattern, which Brzozowski derivatives decide. *)
Inductive regex : Type :=
| Nul                            (* matches nothing *)
| Eps                            (* the empty text *)
| Cls (p : char -> bool)         (* one character of a class *)
| Seq (r1 r2 : regex)            (* r1 r2 *)
| Alt (r1 r2 : regex)            (* r1|r2 *)
| Star (r : regex).              (* r* *)

Definition Opt (r : regex) : regex := Alt Eps r.       (* r? *)
Definition Plus (r : regex) : regex := Seq r (Star r). (* r+ *)

Fixpoint nullable (r : regex) : bool :=
  match r with
  | Nul => false
  | Eps => true
  | Cls _ => false
  | Seq r1 r2 => nullable r1 && nullable r2
  | Alt r1 r2 => nullable r1 || nullable r2
  | Star _ => true
  end.

Fixpoint deriv (c : char) (r : regex) : regex :=
  match r with
  | Nul => Nul
  | Eps => Nul
  | Cls p => if p c then Eps else Nul
  | Seq r1 r2 =>
      if nullable r1 then Alt (Seq (deriv c r1) r2) (deriv c r2)
      else Seq (deriv c r1) r2
  | Alt r1 r2 => Alt (deriv c r1) (deriv c r2)
  | Star r1 => Seq (deriv c r1) (Star r1)
  end.

Fixpoint fullmatch (r : regex) (s : text) : bool :=
  match s with
  | [] => nullable r
  | c :: s' => fullmatch (deriv c r) s'
  end.

(** The language of a pattern. *)
Inductive lang : regex -> text -> Prop :=
| lang_eps : lang Eps []
| lang_cls p c : p c = true -> lang (Cls p) [c]
| lang_seq r1 r2 s1 s2 : lang r1 s1 -> lang r2 s2 -> lang (Seq r1 r2) (s1 ++ s2)
| lang_alt_l r1 r2 s : lang r1 s -> lang (Alt r1 r2) s
| lang_alt_r r1 r2 s : lang r2 s -> lang (Alt r1 r2) s
| lang_star_nil r : lang (Star r) []
| lang_star_cons r s1 s2 :
    lang r s1 -> lang (Star r) s2 -> lang (Star r) (s1 ++ s2).

(** All character classes of a pattern lie within [P]. *)
Fixpoint classes_within (P : char -> Prop) (r : regex) : Prop :=
  match r with
  | Nul | Eps => True
  | Cls p => forall c, p c = true -> P c
  | Seq r1 r2 | Alt r1 r2 => classes_within P r1 /\ classes_within P r2
  | Star r1 => classes_within P r1
  end.

(** *** The configuration parser *)

Section Parser.
Variable is_space : char -> bool.
Variable is_digit : char -> bool.
Variable F : Type.
(** [float(s)]; [None] when it raises. *)
Variable py_float : text -> option F.

(** [s.strip()]. *)
Definition lstrip (s : text) : text := drop_while is_space s.
Definition rstrip (s : text) : text := rev (drop_while is_space (rev s)).
Definition strip (s : text) : text := rstrip (lstrip s).

Definition one (c : ascii) : regex := Cls (N.eqb (chr c)).
Definition sign : regex := Cls (fun c => N.eqb c (chr "-") || N.eqb c (chr "+")).
Definition digit : regex := Cls is_digit.
Definition e_or_E : regex :=
  Cls (fun c => N.eqb c (chr "e") || N.eqb c (chr "E")).

(** The pattern of both [re.fullmatch] calls, written here with blanks
    between its parts:
    [-+]? ( \d+ ( \. \d* )? | \. \d+ ) ( [eE] [-+]? \d+ )? *)
Definition number_pattern : regex :=
  Seq (Opt sign)
    (Seq (Alt (Seq (Plus digit) (Opt (Seq (one ".") (Star digit))))
              (Seq (one ".") (Plus digit)))
         (Opt (Seq e_or_E (Seq (Opt sign) (Plus digit))))).

Inductive item : Type :=
| INum (x : F)
| IText (s : text).

Inductive value : Type :=
| VNum (x : F)
| VList (l : list item)
| VText (s : text).

(** One element of a bracketed value: [float(p)] when [p] matches the
    pattern (an exception there leaves the parser), else [p] itself. *)
Definition parse_item (p : text) : option item :=
  if fullmatch number_pattern p then option_map INum (py_float p)
  else Some (IText p).

Fixpoint parse_items (ps : list text) : option (list item) :=
  match ps with
  | [] => Some []
  | p :: ps' =>
      match parse_item p with
      | None => None
      | Some i => option_map (cons i) (parse_items ps')
      end
  end.

(** The value stored for the text [v] after the [=]; [None] when an
    exception leaves the parser. *)
Definition parse_value (v : text) : option value :=
  match (if fullmatch number_pattern v then py_float v else None) with
  | Some x => Some (VNum x)
  | None =>
      if starts_with (chr "[") v && ends_with (chr "]") v then
        option_map VList
          (parse_items (map strip (split_on (chr ",") (strip (middle v)))))
      else Some (VText v)
  end.

(** The key and the text of the value of a line, or [None] for a line the
    loop skips. *)
Definition read_line (line : text) : option (text * text) :=
  let line := strip line in
  match line with
  | [] => None
  | _ =>
      if starts_with (chr "#") line then None
      else if negb (contains (chr "=") line) then None
      else let (k, v) := split_first (chr "=") line in
           Some (strip k, strip v)
  end.

(** A [dict]: its items in insertion order; assigning to a key that is
    present replaces its value in place. *)
Definition dict : Type := list (text * value).

Fixpoint dict_get (k : text) (d : dict) : option value :=
  match d with
  | [] => None
  | (k', v) :: d' => if text_eq_dec k k' then Some v else dict_get k d'
  end.

Fixpoint dict_set (k : text) (v : value) (d : dict) : dict :=
  match d with
  | [] => [(k, v)]
  | (k', v') :: d' =>
      if text_eq_dec k k' then (k', v) :: d' else (k', v') :: dict_set k v d'
  end.

Fixpoint parse_lines (params : dict) (lines : list text) : option dict :=
  match lines with
  | [] => Some params
  | line :: rest =>
      match read_line line with
      | None => parse_lines params rest
      | Some (k, v) =>
          match parse_value v with
          | None => None
          | Some x => parse_lines (dict_set k x params) rest
          end
      end
  end.

(** [parse_input_txt], on the lines of the file. *)
Definition parse_input_txt (lines : list text) : option dict :=
  parse_lines [] lines.

(** The text that the last line assigning to [k] gives it. *)
Fixpoint last_assignment (k : text) (lines : list text) : option text :=
  match lines with
  | [] => None
  | line :: rest =>
      match last_assignment k rest with
      | Some v => Some v
      | None =>
          match read_line line with
          | Some (k', v) => if text_eq_dec k k' then Some v else None
          | None => None
          end
      end
  end.

(** The shape of a stored value: a list is never empty, a text carries
    no white space at its ends. *)
Definition value_shape (x : value) : Prop :=
  match x with
  | VNum _ => True
  | VList l => l <> []
  | VText s => strip s = s
  end.

(** The characters a number may be written with. *)
Definition number_char (c : char) : bool :=
  is_digit c || N.eqb c (chr "-") || N.eqb c (chr "+") || N.eqb c (chr ".")
  || N.eqb c (chr "e") || N.eqb c (chr "E").
End Parser.

Arguments IText {F} s.
Arguments VText {F} s.

(** An ASCII instance of the tables, and a stand-in for [float] that
    reads unsigned integers only, for the examples. *)
Definition ascii_space (c : char) : bool :=
  N.eqb c 32 || (N.leb 9 c && N.leb c 13).

Definition ascii_digit (c : char) : bool := N.leb 48 c && N.leb c 57.

Fixpoint nat_float (acc : Q) (s : text) : option Q :=
  match s with
  | [] => Some acc
  | c :: s' =>
      if ascii_digit c
      then nat_float (acc * 10 + inject_Z (Z.of_N c - 48))%Q s'
      else None
  end.

(** *** The report table

    A record handed to [format_table] is a [dict] from keys to cells that
    are [int], [float] or [str].  How Python writes a number as text is the
    interpreter's: [format(v, ".10g")] of a float, the same of an [int]
    (which converts it to a float first and raises on overflow) and
    [str(v)] of an [int] are parameters. *)

Section Table.
Variable F : Type.
Variable g10_float : F -> text.
Variable g10_int : Z -> option text.
Variable str_int : Z -> text.

Inductive cell : Type :=
| CInt (i : Z)
| CFloat (x : F)
| CText (s : text).

Definition record : Type := list (text * cell).

(** [sorted({k for r in rows for k in r.keys()})], used when no headers
    are given. *)
Variable sorted_keys : list record -> list text.

(** [r.get(h, "")]. *)
Fixpoint cell_get (h : text) (r : record) : cell :=
  match r with
  | [] => CText []
  | (k, v) :: r' => if text_eq_dec h k then v else cell_get h r'
  end.

(** The length that enters [widths]: of the [.10g] form for an [int] or
    a [float], of [str(v)] otherwise. *)
Definition cell_width (v : cell) : option nat :=
  match v with
  | CInt i => option_map (@length char) (g10_int i)
  | CFloat x => Some (length (g10_float x))
  | CText s => Some (length s)
  end.

(** The text written in a row: the [.10g] form for a [float] only,
    [str(v)] otherwise. *)
Definition cell_text (v : cell) : text :=
  match v with
  | CInt i => str_int i
  | CFloat x => g10_float x
  | CText s => s
  end.

Definition cell_is_number (v : cell) : bool :=
  match v with
  | CText _ => false
  | _ => true
  end.

(** [widths[h]]: the largest of [len(h)] and the widths of the cells of
    the column. *)
Fixpoint column_width (h : text) (rows : list record) : option nat :=
  match rows with
  | [] => Some (length h)
  | r :: rows' =>
      match cell_width (cell_get h r), column_width h rows' with
      | Some w, Some m => Some (Nat.max w m)
      | _, _ => None
      end
  end.

Fixpoint column_widths (headers : list text) (rows : list record)
    : option (list nat) :=
  match headers with
  | [] => Some []
  | h :: hs =>
      match column_width h rows, column_widths hs rows with
      | Some w, Some ws => Some (w :: ws)
      | _, _ => None
      end
  end.

Definition spaces (n : nat) : text := repeat (chr " ") n.

(** [s.ljust(w)] and [s.rjust(w)]. *)
Definition ljust (w : nat) (s : text) : text := s ++ spaces (w - length s).
Definition rjust (w : nat) (s : text) : text := spaces (w - length s) ++ s.

(** [sep.join(parts)]. *)
Fixpoint join (sep : text) (parts : list text) : text :=
  match parts with
  | [] => []
  | [p] => p
  | p :: ps => p ++ sep ++ join sep ps
  end.

Definition padded_cell (r : record) (hw : text * nat) : text :=
  let v := cell_get (fst hw) r in
  if cell_is_number v then rjust (snd hw) (cell_text v)
  else ljust (snd hw) (cell_text v).

(** The list [lines] that [format_table] builds for non-empty [rows]:
    the header line, the rule under it, one line per record. *)
Definition table_lines (rows : list record) (headers : list text)
    : option (list text) :=
  match column_widths headers rows with
  | None => None
  | Some ws =>
      let hws := combine headers ws in
      Some (join (text_of " | ") (map (fun hw => ljust (snd hw) (fst hw)) hws)
            :: join (text_of "-+-")
                 (map (fun hw => repeat (chr "-") (snd hw)) hws)
            :: map (fun r => join (text_of " | ") (map (padded_cell r) hws))
                 rows)
  end.

(** ["(sem iterações)\n"], the table of no rows. *)
Definition no_rows_text : text :=
  text_of "(sem itera" ++ [231; 245]%N ++ text_of "es)" ++ [10]%N.

Definition format_table (rows : list record) (headers : list text)
    : option text :=
  match rows with
  | [] => Some no_rows_text
  | _ =>
      let headers := match headers with
                     | [] => sorted_keys rows
                     | _ => headers
                     end in
      option_map (fun lines => join [10%N] lines ++ [10%N])
        (table_lines rows headers)
  end.
End Table.

Arguments CInt {F} i.
Arguments CText {F} s.

(** *** The columns of the reports

    [sorted(keys, key=lambda x: (flag(x), x))]: texts compare by code
    points, and a key whose flag is [False] (a pinned key) comes before
    every key whose flag is [True].  The keys are distinct (they come from
    a set), so the sorted list does not depend on the sorting method; it
    is built here by stable insertion. *)

Fixpoint text_leb (s t : text) : bool :=
  match s, t with
  | [], _ => true
  | _ :: _, [] => false
  | a :: s', b :: t' =>
      if N.ltb a b then true
      else if N.eqb a b then text_leb s' t' else false
  end.

Definition pinned_leb (pinned : text -> bool) (a b : text) : bool :=
  match pinned a, pinned b with
  | true, false => true
  | false, true => false
  | _, _ => text_leb a b
  end.

Fixpoint insert_sorted (leb : text -> text -> bool) (x : text)
    (l : list text) : list text :=
  match l with
  | [] => [x]
  | y :: l' => if leb x y then x :: l else y :: insert_sorted leb x l'
  end.

Definition py_sorted (leb : text -> text -> bool) (l : list text)
    : list text :=
  fold_right (insert_sorted leb) [] l.

Definition is_text (name : string) (x : text) : bool :=
  if text_eq_dec x (text_of name) then true else false.

Section Columns.
Variable F : Type.

(** [{k for r in rows for k in r.keys()}]. *)
Definition keys_of (rows : list (record F)) : list text :=
  nodup text_eq_dec (flat_map (map fst) rows).

(** The headers of one method's table in [write_txt_and_csv]:
    [sorted(..., key=lambda x: (x != "iter", x))]. *)
Definition table_headers (rows : list (record F)) : list text :=
  py_sorted (pinned_leb (is_text "iter")) (keys_of rows).

(** The field names of the CSV file, over the rows of all methods:
    [sorted(... | {"method"}, key=lambda x: (x != "method" and x != "iter", x))]. *)
Definition csv_fieldnames (all_rows : list (record F)) : list text :=
  py_sorted (pinned_leb (fun x => is_text "method" x || is_text "iter" x))
    (nodup text_eq_dec (flat_map (map fst) all_rows ++ [text_of "method"])).
End Columns.

(** Stand-ins for Python's number formatting, for the examples: the
    decimal digits of an [int], and [p/q] for a rational. *)
Definition show_int (i : Z) : text :=
  text_of (NilZero.string_of_int (Z.to_int i)).

Definition show_Q (q : Q) : text :=
  show_int (Qnum q) ++ text_of "/" ++ show_int (Zpos (Qden q)).

Definition sample_records : list (record Q) :=
  [ [(text_of "iter", CInt 1); (text_of "x", CFloat (3 # 2)%Q);
     (text_of "erro", CFloat (1 # 2)%Q)];
    [(text_of "iter", CInt 10); (text_of "x", CFloat (11 # 8)%Q);
     (text_of "erro", CFloat (1 # 8)%Q)];
    [(text_of "iter", CInt 0); (text_of "erro_msg", CText (text_of "falhou"))] ].

Definition sample_table_lines : list text :=
  Eval vm_compute in
    match table_lines show_Q (fun i => Some (show_int i)) show_int
            sample_records (table_headers sample_records) with
    | Some lines => lines
    | None => []
    end.

(** The lines of a small configuration file, and its parse under the
    ASCII tables. *)
Definition sample_config : list text :=
  map text_of
    ["# dados"; "  tol = 12  "; ""; "sem valor"; "function = x^2 - 2";
     "a = [1, 2,x ]"; "b=[]"; "tol=7"]%string.

Definition sample_params : dict Q :=
  Eval vm_compute in
    match parse_input_txt ascii_space ascii_digit (nat_float 0) sample_config with
    | Some d => d
    | None => []
    end.

(** ** Facts about the loop *)

Section LoopFacts.
Variables St R : Type.
Variable body : Z -> St -> result (R * ctl St).

Lemma for_range_length (n : nat) : forall k s rows,
  for_range body n k s = Ok rows -> (length rows <= n)%nat.
Proof.
  induction n as [|n IH]; intros k s rows H; simpl in H.
  - inversion H; simpl; lia.
  - destruct (body k s) as [[r [s'|s']]|e]; try discriminate.
    + inversion H; simpl; lia.
    + destruct (for_range body n (k + 1) s') as [rs|e] eqn:E;
        simpl in H; try discriminate.
      inversion H; subst; simpl. apply IH in E. lia.
Qed.

Lemma for_range_nonempty (n : nat) (k : Z) (s : St) (rows : list R) :
  for_range body (S n) k s = Ok rows -> (1 <= length rows)%nat.
Proof.
  simpl. destruct (body k s) as [[r [s'|s']]|e]; try discriminate.
  - intros H; inversion H; simpl; lia.
  - destruct (for_range body n (k + 1) s'); simpl; try discriminate.
    intros H; inversion H; simpl; lia.
Qed.

(** The loop raises exactly when the body raises at an iteration it
    reaches. *)
Lemma for_range_raise_iff (n : nat) : forall k s e,
  for_range body n k s = Raise e <->
  exists j s', (j < n)%nat /\ locals_after body j k s = Some s' /\
               body (k + Z.of_nat j) s' = Raise e.
Proof.
  induction n as [|n IH]; intros k s e; simpl.
  - split; [discriminate | intros (j & s' & Hj & _); lia].
  - split.
    + destruct (body k s) as [[r [s'|s']]|e'] eqn:Eb; try discriminate.
      * destruct (for_range body n (k + 1) s') as [rs|e'] eqn:E;
          simpl; try discriminate.
        intros H; inversion H; subst e'.
        apply IH in E. destruct E as (j & s'' & Hj & Hl & Hb).
        exists (S j), s''. repeat split; [lia | |].
        -- simpl. rewrite Eb. exact Hl.
        -- replace (k + Z.of_nat (S j))%Z
             with (k + 1 + Z.of_nat j)%Z by lia. exact Hb.
      * intros H; inversion H; subst e'.
        exists O, s. repeat split; [lia | ].
        replace (k + Z.of_nat 0)%Z with k by lia. exact Eb.
    + intros (j & s' & Hj & Hl & Hb). destruct j as [|j]; simpl in Hl.
      * inversion Hl; subst s'.
        replace (k + Z.of_nat 0)%Z with k in Hb by lia.
        rewrite Hb. reflexivity.
      * destruct (body k s) as [[r [s1|s1]]|e'] eqn:Eb; try discriminate.
        assert (E : for_range body n (k + 1) s1 = Raise e).
        { apply IH. exists j, s'. repeat split; [lia | exact Hl |].
          replace (k + 1 + Z.of_nat j)%Z
            with (k + Z.of_nat (S j))%Z by lia. exact Hb. }
        rewrite E. reflexivity.
Qed.

(** Every returned record comes from the body run on the locals the loop
    had reached; the body leaves by [break] only at the last record, and
    a last record without [break] means the range is exhausted. *)
Lemma for_range_nth (n : nat) : forall k s rows i r,
  for_range body n k s = Ok rows ->
  nth_error rows i = Some r ->
  exists s' c,
    locals_after body i k s = Some s' /\
    body (k + Z.of_nat i) s' = Ok (r, c) /\
    match c with
    | Break _ => S i = length rows
    | Continue _ =>
        (S i < length rows)%nat \/
        (S i = length rows /\ length rows = n)
    end.
Proof.
  induction n as [|n IH]; intros k s rows i r H Hi; simpl in H.
  - inversion H; subst. destruct i; discriminate.
  - destruct (body k s) as [[r0 [s0|s0]]|e] eqn:Eb; try discriminate.
    + inversion H; subst rows.
      destruct i as [|i]; [|destruct i; discriminate].
      inversion Hi; subst r0. exists s, (Break s0).
      replace (k + Z.of_nat 0)%Z with k by lia. auto.
    + destruct (for_range body n (k + 1) s0) as [rs|e] eqn:E;
        simpl in H; try discriminate.
      inversion H; subst rows. destruct i as [|i]; simpl in Hi.
      * inversion Hi; subst r0. exists s, (Continue s0).
        replace (k + Z.of_nat 0)%Z with k by lia.
        repeat split; auto. simpl.
        pose proof (for_range_length _ _ _ E) as Hl.
        destruct rs as [|r1 rs]; simpl in *; [right|left]; try lia.
        destruct n; simpl in E; [auto|].
        destruct (body (k + 1) s0) as [[r1 [s1|s1]]|e1]; try discriminate.
        destruct (for_range body n (k + 1 + 1) s1); discriminate.
      * destruct (IH _ _ _ _ _ E Hi) as (s' & c & Hl & Hb & Hc).
        exists s', c.
        replace (k + Z.of_nat (S i))%Z
          with (k + 1 + Z.of_nat i)%Z by lia.
        simpl locals_after. rewrite Eb.
        split; [exact Hl|]. split; [exact Hb|].
        destruct c; simpl length; [lia|]. destruct Hc as [Hc|[Hc Hn]]; lia.
Qed.

(** A loop whose body cannot raise on reachable locals returns. *)
Lemma for_range_returns (n : nat) (k : Z) (s : St) :
  (forall j s', (j < n)%nat -> locals_after body j k s = Some s' ->
                exists v, body (k + Z.of_nat j) s' = Ok v) ->
  exists rows, for_range body n k s = Ok rows.
Proof.
  intros H. destruct (for_range body n k s) as [rows|e] eqn:E; eauto.
  apply for_range_raise_iff in E. destruct E as (j & s' & Hj & Hl & Hb).
  destruct (H _ _ Hj Hl) as [v Hv]. congruence.
Qed.

(** One more completed iteration. *)
Lemma locals_after_succ (j : nat) : forall k s s'',
  locals_after body (S j) k s = Some s'' <->
  exists s' r, locals_after body j k s = Some s' /\
               body (k + Z.of_nat j) s' = Ok (r, Continue s'').
Proof.
  induction j as [|j IH]; intros k s s''.
  - simpl. replace (k + 0)%Z with k by lia. split.
    + destruct (body k s) as [[r [t|t]]|e] eqn:Eb; try discriminate.
      intros H; inversion H; subst. eauto.
    + intros (s' & r & Hs & Hb). inversion Hs; subst s'.
      rewrite Hb. reflexivity.
  - change (locals_after body (S (S j)) k s)
      with (match body k s with
            | Ok (_, Continue s1) => locals_after body (S j) (k + 1) s1
            | _ => None
            end).
    replace (k + Z.of_nat (S j))%Z
      with (k + 1 + Z.of_nat j)%Z by lia.
    simpl (locals_after body (S j) k s).
    destruct (body k s) as [[r [t|t]]|e] eqn:Eb.
    + split; [discriminate | intros (s' & r' & Hs & _); discriminate].
    + apply IH.
    + split; [discriminate | intros (s' & r' & Hs & _); discriminate].
Qed.

(** A property of the locals that every non-breaking iteration keeps
    holds at every iteration the loop starts. *)
Lemma locals_after_invariant (Inv : St -> Prop) :
  (forall k s r s', Inv s -> body k s = Ok (r, Continue s') -> Inv s') ->
  forall j k s s', Inv s -> locals_after body j k s = Some s' -> Inv s'.
Proof.
  intros Hstep j. induction j as [|j IH]; intros k s s' Hs Hl.
  - simpl in Hl. inversion Hl; subst; exact Hs.
  - apply locals_after_succ in Hl. destruct Hl as (s1 & r & Hl & Hb).
    eapply Hstep; [|exact Hb]. eapply IH; eauto.
Qed.

(** An iteration that leaves by [break] ends the run: the sequence is
    returned and its last record is the one of that iteration. *)
Lemma for_range_break (n : nat) : forall j k s s' r t,
  (j < n)%nat ->
  locals_after body j k s = Some s' ->
  body (k + Z.of_nat j) s' = Ok (r, Break t) ->
  exists rows, for_range body n k s = Ok rows /\
               length rows = S j /\ nth_error rows j = Some r.
Proof.
  induction n as [|n IH]; intros j k s s' r t Hj Hl Hb; [lia|].
  destruct j as [|j].
  - simpl in Hl. inversion Hl; subst s'.
    replace (k + Z.of_nat 0)%Z with k in Hb by lia.
    simpl. rewrite Hb. exists [r]. auto.
  - simpl in Hl. simpl for_range.
    destruct (body k s) as [[r0 [s0|s0]]|e] eqn:Eb; try discriminate.
    replace (k + Z.of_nat (S j))%Z
      with (k + 1 + Z.of_nat j)%Z in Hb by lia.
    destruct (IH j (k + 1)%Z s0 s' r t) as (rows & Hr & Hlen & Hn);
      [lia | exact Hl | exact Hb |].
    rewrite Hr. simpl. exists (r0 :: rows). simpl. auto.
Qed.
End LoopFacts.


(** ** What the loop bodies can raise *)

Section BodyFacts.
Context {F : Type} {A : Arith F}.
Local Open Scope py_scope.

Lemma safe_eval_ok (e : expr) (x y : F) :
  safe_eval e x = Ok y <-> e x = Some y.
Proof.
  unfold safe_eval. destruct (e x); split; intros H; inversion H; reflexivity.
Qed.

Lemma safe_eval_raise (e : expr) (x : F) (ex : exn) :
  safe_eval e x = Raise ex <-> e x = None /\ ex = ValueError msg_avaliar.
Proof.
  unfold safe_eval. destruct (e x); split.
  - discriminate.
  - intros [H _]; discriminate.
  - intros H; inversion H; auto.
  - intros [_ ->]; reflexivity.
Qed.

Lemma bracket_rest_raise (f : expr) (tol : F) (k : Z) (s : bracket_locals)
    (c : F) (e : exn) :
  bracket_rest f tol k s c = Raise e -> e = ValueError msg_avaliar.
Proof.
  unfold bracket_rest, safe_eval. destruct (f c); simpl.
  - destruct (_ || _); [discriminate|]. destruct (_ <? _); discriminate.
  - intros H; inversion H; reflexivity.
Qed.

Lemma bisseccao_body_raise (f : expr) (tol : F) (k : Z) (s : bracket_locals)
    (e : exn) :
  bisseccao_body f tol k s = Raise e -> e = ValueError msg_avaliar.
Proof. apply bracket_rest_raise. Qed.

Lemma regula_falsi_body_raise (f : expr) (tol : F) (k : Z)
    (s : bracket_locals) (e : exn) :
  regula_falsi_body f tol k s = Raise e ->
  e = ValueError msg_avaliar \/ e = ZeroDivisionError msg_float_division.
Proof.
  unfold regula_falsi_body, py_div. destruct (_ ==? _); simpl.
  - intros H; inversion H; auto.
  - intros H; left; eapply bracket_rest_raise; eauto.
Qed.

(** The loops of the bracketing methods never raise the sign error. *)
Lemma bracket_loops_no_precondition (f : expr) (tol : F) (n : nat) (k : Z)
    (s : bracket_locals) (e : exn) :
  for_range (bisseccao_body f tol) n k s = Raise e \/
  for_range (regula_falsi_body f tol) n k s = Raise e ->
  classify e <> PreconditionError.
Proof.
  intros [H|H]; apply for_range_raise_iff in H;
    destruct H as (j & s' & _ & _ & Hb).
  - apply bisseccao_body_raise in Hb; subst; discriminate.
  - apply regula_falsi_body_raise in Hb; destruct Hb; subst; discriminate.
Qed.
End BodyFacts.

(** ** Sign precondition of the bracketing methods *)

(** C1.  Bisection and regula falsi end in a PreconditionError, returning
    no sequence, exactly when both endpoint evaluations succeed and the test
    [fa * fb > 0] holds; in every other case (a product that is zero or
    negative included) the exception, if any, is of another kind. *)
Theorem bracket_precondition_iff {F : Type} {A : Arith F}
    (f : expr) (a b tol : F) (max_iter : Z) :
  (raises_kind (bisseccao f a b tol max_iter) PreconditionError <->
   exists fa fb, f a = Some fa /\ f b = Some fb /\
                 ltb zero (mul fa fb) = true) /\
  (raises_kind (regula_falsi f a b tol max_iter) PreconditionError <->
   exists fa fb, f a = Some fa /\ f b = Some fb /\
                 ltb zero (mul fa fb) = true).
Proof.
  split; unfold raises_kind, bisseccao, regula_falsi, safe_eval;
    (destruct (f a) as [fa|]; simpl;
     [destruct (f b) as [fb|]; simpl;
      [destruct (ltb zero (mul fa fb)) eqn:Hs|]|]);
    split;
    try (intros (e & He & Hk); inversion He; subst; discriminate);
    try (intros (fa' & fb' & Ha & Hb & Hp); congruence).
  - intros _. exists fa, fb. auto.
  - intros _. eexists. split; reflexivity.
  - intros (e & He & Hk). exfalso.
    eapply bracket_loops_no_precondition; eauto.
  - intros _. exists fa, fb. auto.
  - intros _. eexists. split; reflexivity.
  - intros (e & He & Hk). exfalso.
    eapply bracket_loops_no_precondition; eauto.
Qed.

(** ** Division by zero in regula falsi *)

(** C2 (as amended).  When a run of regula falsi starts an iteration whose
    divisor [fb - fa] compares equal to zero (for finite values: the two
    retained function values are equal), the division of the interpolation
    step raises Python's ZeroDivisionError: the call ends in a
    NumericError, which is not the sign error, and no sequence (hence no
    infinite or NaN estimate from a division by zero) is returned. *)
Theorem regula_falsi_zero_divisor_raises {F : Type} {A : Arith F}
    (f : expr) (a b tol : F) (max_iter : Z) (s : bracket_locals) :
  regula_falsi_reaches f a b tol max_iter s ->
  eqb (sub (l_fb s) (l_fa s)) zero = true ->
  regula_falsi f a b tol max_iter = Raise (ZeroDivisionError msg_float_division) /\
  raises_kind (regula_falsi f a b tol max_iter) NumericError /\
  ~ raises_kind (regula_falsi f a b tol max_iter) PreconditionError /\
  forall rows, regula_falsi f a b tol max_iter <> Ok rows.
Proof.
  intros (fa & fb & Ha & Hb & Hs & j & Hj & Hl) Hz.
  assert (E : regula_falsi f a b tol max_iter =
              Raise (ZeroDivisionError msg_float_division)).
  { unfold regula_falsi, safe_eval. rewrite Ha, Hb. simpl. rewrite Hs.
    apply for_range_raise_iff. exists j, s. repeat split; auto.
    unfold regula_falsi_body, py_div. rewrite Hz. reflexivity. }
  rewrite E. repeat split.
  - eexists; split; reflexivity.
  - intros (e & He & Hk). inversion He; subst. discriminate.
  - discriminate.
Qed.

Lemma regula_falsi_zero_divisor_witness :
  regula_falsi f_sq1_float (-1)%float 1%float 0x1.0c6f7a0b5ed8dp-20%float 100 =
  Raise (ZeroDivisionError msg_float_division).
Proof.
  apply (@regula_falsi_zero_divisor_raises float float_arith f_sq1_float
           (-1)%float 1%float 0x1.0c6f7a0b5ed8dp-20%float 100
           (bracket_start (-1) 1 0 0)%float).
  - exists 0%float, 0%float. repeat split.
    exists 0%nat. split; [vm_compute; lia | reflexivity].
  - reflexivity.
Defined.

(** C2, the claim as first stated fails: two equal retained values need
    not give a zero divisor.  With [f = "inf if x else 0.0"] on [0, 1] in
    binary64 the first estimate is NaN and replaces [a]; the second
    iteration starts with [f(a) = f(b) = inf], whose difference is NaN and
    not zero, so nothing is raised: the call returns three records whose
    estimates are NaN. *)
Lemma regula_falsi_equal_infinities_return :
  exists s rows,
    regula_falsi_reaches f_inf_float 0%float 1%float
      0x1.0c6f7a0b5ed8dp-20%float 3 s /\
    f_inf_float (l_a s) = Some (l_fa s) /\
    f_inf_float (l_b s) = Some (l_fb s) /\
    l_fa s = infinity /\ l_fb s = infinity /\
    PrimFloat.eqb (l_fb s) (l_fa s) = true /\
    regula_falsi f_inf_float 0%float 1%float
      0x1.0c6f7a0b5ed8dp-20%float 3 = Ok rows /\
    length rows = 3%nat /\
    Forall (fun r => PrimFloat.eqb (br_x r) (br_x r) = false) rows.
Proof.
  eexists. eexists. split.
  - exists 0%float, infinity. repeat split.
    exists 1%nat. split; [vm_compute; lia | vm_compute; reflexivity].
  - repeat split. repeat constructor.
Qed.

(** ** Zero derivative in Newton's method *)

Section NewtonFacts.
Context {F : Type} {A : Arith F}.
Local Open Scope py_scope.

Lemma newton_body_raise (f df : expr) (tol : F) (k : Z) (x : F) (e : exn) :
  newton_body f df tol k x = Raise e <->
  (e = ValueError msg_avaliar /\
   (f x = None \/ exists fx, f x = Some fx /\ df x = None)) \/
  (e = ZeroDivisionError msg_derivada_zero /\
   exists fx d, f x = Some fx /\ df x = Some d /\ (d ==? zero) = true).
Proof.
  unfold newton_body, safe_eval, py_div.
  destruct (f x) as [fx|]; simpl.
  - destruct (df x) as [d|]; simpl.
    + destruct (d ==? zero) eqn:Hd; simpl.
      * split.
        -- intros H; inversion H. right. split; [reflexivity|].
           exists fx, d. auto.
        -- intros [[-> [H|(fx' & _ & H)]]|[-> _]];
             try discriminate; reflexivity.
      * destruct (_ || _); split; try discriminate;
          intros [[_ [H|(fx' & _ & H)]]|[_ (fx' & d' & _ & H1 & H2)]];
          try discriminate; inversion H1; subst; congruence.
    + split.
      * intros H; inversion H. left. split; [reflexivity|]. right. eauto.
      * intros [[-> _]|[_ (fx' & d' & _ & H & _)]];
          [reflexivity | discriminate].
  - split.
    + intros H; inversion H. left. auto.
    + intros [[-> _]|[_ (fx' & d' & H & _)]]; [reflexivity | discriminate].
Qed.
End NewtonFacts.

(** C3 (as amended).  A call of Newton's method ends in a NumericError
    exactly when the loop starts an iteration at an iterate [x] where [f]
    evaluates and [f'] evaluates to a value equal to 0; it ends in an
    EvaluationError exactly when the loop starts an iteration at an iterate
    where [f] or [f'] fails to evaluate; and it returns its sequence
    exactly in the remaining case, when at every iterate the loop starts
    an iteration at, both evaluate and [f'] is not 0. *)
Theorem newton_numeric_error_iff {F : Type} {A : Arith F}
    (f df : expr) (x0 tol : F) (max_iter : Z) :
  (raises_kind (newton f df x0 tol max_iter) NumericError <->
   exists x fx d,
     newton_reaches f df x0 tol max_iter x /\
     f x = Some fx /\ df x = Some d /\ eqb d zero = true) /\
  (raises_kind (newton f df x0 tol max_iter) EvaluationError <->
   exists x,
     newton_reaches f df x0 tol max_iter x /\
     (f x = None \/ df x = None)) /\
  ((exists rows, newton f df x0 tol max_iter = Ok rows) <->
   forall x,
     newton_reaches f df x0 tol max_iter x ->
     exists fx d, f x = Some fx /\ df x = Some d /\ eqb d zero = false).
Proof.
  assert (Hnum :
    raises_kind (newton f df x0 tol max_iter) NumericError <->
    exists x fx d,
      newton_reaches f df x0 tol max_iter x /\
      f x = Some fx /\ df x = Some d /\ eqb d zero = true).
  { unfold raises_kind, newton_reaches, reaches, newton. split.
    - intros (e & He & Hk). apply for_range_raise_iff in He.
      destruct He as (j & x & Hj & Hl & Hb).
      apply newton_body_raise in Hb.
      destruct Hb as [[-> _]|[_ (fx & d & Hf & Hd & Hz)]]; [discriminate|].
      exists x, fx, d. eauto 6.
    - intros (x & fx & d & (j & Hj & Hl) & Hf & Hd & Hz).
      exists (ZeroDivisionError msg_derivada_zero). split; [|reflexivity].
      apply for_range_raise_iff. exists j, x. repeat split; auto.
      apply newton_body_raise. right. split; [reflexivity|]. eauto. }
  assert (Hev :
    raises_kind (newton f df x0 tol max_iter) EvaluationError <->
    exists x,
      newton_reaches f df x0 tol max_iter x /\
      (f x = None \/ df x = None)).
  { unfold raises_kind, newton_reaches, reaches, newton. split.
    - intros (e & He & Hk). apply for_range_raise_iff in He.
      destruct He as (j & x & Hj & Hl & Hb).
      apply newton_body_raise in Hb.
      destruct Hb as [[_ Hb]|[-> _]]; [|discriminate].
      exists x. split; [eauto|].
      destruct Hb as [Hb|(fx & _ & Hb)]; auto.
    - intros (x & (j & Hj & Hl) & Hx).
      exists (ValueError msg_avaliar). split; [|reflexivity].
      apply for_range_raise_iff. exists j, x. repeat split; auto.
      apply newton_body_raise. left. split; [reflexivity|].
      destruct (f x) as [fx|] eqn:Ef; [right|left; reflexivity].
      destruct Hx as [Hx|Hx]; [discriminate|]. eauto. }
  split; [exact Hnum|]. split; [exact Hev|]. split.
  - intros [rows Hrows] x Hx.
    destruct (f x) as [fx|] eqn:Ef.
    + destruct (df x) as [d|] eqn:Ed.
      * destruct (eqb d zero) eqn:Ez; [|eauto].
        assert (Hr : raises_kind (newton f df x0 tol max_iter) NumericError)
          by (apply Hnum; eauto 7).
        destruct Hr as (e & He & _). congruence.
      * assert (Hr : raises_kind (newton f df x0 tol max_iter)
                       EvaluationError) by (apply Hev; eauto).
        destruct Hr as (e & He & _). congruence.
    + assert (Hr : raises_kind (newton f df x0 tol max_iter)
                     EvaluationError) by (apply Hev; eauto).
      destruct Hr as (e & He & _). congruence.
  - intros Hall.
    destruct (newton f df x0 tol max_iter) as [rows|e] eqn:E; [eauto|].
    exfalso. unfold newton in E. apply for_range_raise_iff in E.
    destruct E as (j & x & Hj & Hl & Hb).
    destruct (Hall x) as (fx & d & Hf & Hd & Hz); [exists j; auto|].
    apply newton_body_raise in Hb.
    destruct Hb as [[_ [Hb|(fx' & _ & Hb)]]|[_ (fx' & d' & _ & Hb & Hz')]];
      congruence.
Qed.

(** C3, the claim as first stated fails: with [f] undefined at the initial
    guess and a derivative that is 1 everywhere, no iterate has a zero
    derivative, yet the call does not return a sequence: it ends in the
    evaluation error. *)
Lemma newton_evaluation_error_example :
  newton f_positive_Q f_one_Q (-1) (1 # 1000000) 100 =
    Raise (ValueError msg_avaliar) /\
  classify (ValueError msg_avaliar) = EvaluationError /\
  forall x : Q, f_one_Q x = Some 1%Q /\ eqb 1%Q zero = false.
Proof. repeat split. Qed.

(** ** Zero denominator in the secant method *)

Section SecanteFacts.
Context {F : Type} {A : Arith F}.
Local Open Scope py_scope.

Lemma secante_body_zero (f : expr) (tol : F) (k : Z) (s : secante_locals) :
  (s_fx s - s_f_prev s ==? zero) = true ->
  secante_body f tol k s = Raise (ZeroDivisionError msg_denominador_zero).
Proof. intros H. unfold secante_body. rewrite H. reflexivity. Qed.

Lemma secante_body_raise (f : expr) (tol : F) (k : Z) (s : secante_locals)
    (e : exn) :
  secante_body f tol k s = Raise e ->
  (e = ZeroDivisionError msg_denominador_zero /\
   (s_fx s - s_f_prev s ==? zero) = true) \/
  e = ValueError msg_avaliar.
Proof.
  unfold secante_body, py_div.
  destruct (s_fx s - s_f_prev s ==? zero) eqn:Hd; simpl.
  - intros H; inversion H; auto.
  - destruct (_ || _); [discriminate|].
    unfold safe_eval. destruct (f _); simpl; [discriminate|].
    intros H; inversion H; auto.
Qed.
End SecanteFacts.

(** The two ways an iteration of the secant method raises: the zero
    denominator, and the evaluation of [f] at the new estimate of an
    iteration that does not stop. *)
Lemma secante_body_raise_iff {F : Type} {A : Arith F}
    (f : expr) (tol : F) (k : Z) (s : secante_locals) (e : exn) :
  secante_body f tol k s = Raise e <->
  (e = ZeroDivisionError msg_denominador_zero /\
   eqb (sub (s_fx s) (s_f_prev s)) zero = true) \/
  (e = ValueError msg_avaliar /\
   eqb (sub (s_fx s) (s_f_prev s)) zero = false /\
   secante_stops tol s = false /\ f (secante_estimate s) = None).
Proof.
  unfold secante_body, py_div, secante_stops, secante_estimate.
  destruct (eqb (sub (s_fx s) (s_f_prev s)) zero) eqn:Hd; cbn [bind].
  - split.
    + intros H; inversion H; auto.
    + intros [[-> _]|(_ & H & _)]; [reflexivity | discriminate].
  - cbv zeta. destruct (_ || _)%bool.
    + split; [discriminate|].
      intros [[_ H]|(_ & _ & H & _)]; discriminate.
    + unfold safe_eval.
      match goal with
      | |- context [f ?z] => destruct (f z) as [y|] eqn:E
      end; cbn [bind].
      * split; [discriminate|].
        intros [[_ H]|(_ & _ & _ & H)]; discriminate.
      * split.
        -- intros H; inversion H. right. auto.
        -- intros [[_ H]|(-> & _)]; [discriminate | reflexivity].
Qed.

(** C4 (as amended).  A call of the secant method ends in a NumericError
    exactly when both initial guesses evaluate and the loop starts an
    iteration whose two retained function values give
    [denom = fx - f_prev == 0]; it ends in an EvaluationError exactly when
    [f] fails to evaluate at [x0], at [x1], or at the new estimate of an
    iteration that is started, has a non-zero denominator and does not
    stop; and it returns its sequence exactly in the remaining case. *)
Theorem secante_numeric_error_iff {F : Type} {A : Arith F}
    (f : expr) (x0 x1 tol : F) (max_iter : Z) :
  (raises_kind (secante f x0 x1 tol max_iter) NumericError <->
   exists s,
     secante_reaches f x0 x1 tol max_iter s /\
     eqb (sub (s_fx s) (s_f_prev s)) zero = true) /\
  (raises_kind (secante f x0 x1 tol max_iter) EvaluationError <->
   f x0 = None \/ f x1 = None \/
   exists s,
     secante_reaches f x0 x1 tol max_iter s /\
     eqb (sub (s_fx s) (s_f_prev s)) zero = false /\
     secante_stops tol s = false /\ f (secante_estimate s) = None) /\
  ((exists rows, secante f x0 x1 tol max_iter = Ok rows) <->
   (exists y0 y1, f x0 = Some y0 /\ f x1 = Some y1) /\
   forall s,
     secante_reaches f x0 x1 tol max_iter s ->
     eqb (sub (s_fx s) (s_f_prev s)) zero = false /\
     (secante_stops tol s = true \/
      exists y, f (secante_estimate s) = Some y)).
Proof.
  assert (Hnum :
    raises_kind (secante f x0 x1 tol max_iter) NumericError <->
    exists s,
      secante_reaches f x0 x1 tol max_iter s /\
      eqb (sub (s_fx s) (s_f_prev s)) zero = true).
  { unfold raises_kind, secante_reaches, reaches, secante, safe_eval,
      secante_start.
    destruct (f x0) as [y0|]; cbn [bind];
      [destruct (f x1) as [y1|]; cbn [bind]|]; split.
    - intros (e & He & Hk). apply for_range_raise_iff in He.
      destruct He as (j & s & Hj & Hl & Hb).
      apply secante_body_raise_iff in Hb.
      destruct Hb as [[_ Hz]|[-> _]]; [|discriminate].
      exists s. split; [|exact Hz]. exists y0, y1. eauto 6.
    - intros (s & (f_prev & fx & H0 & H1 & j & Hj & Hl) & Hz).
      inversion H0; inversion H1; subst f_prev fx.
      exists (ZeroDivisionError msg_denominador_zero). split; [|reflexivity].
      apply for_range_raise_iff. exists j, s. repeat split; auto.
      apply secante_body_raise_iff. left. auto.
    - intros (e & He & Hk). inversion He; subst; discriminate.
    - intros (s & (f_prev & fx & _ & H1 & _) & _). discriminate.
    - intros (e & He & Hk). inversion He; subst; discriminate.
    - intros (s & (f_prev & fx & H0 & _) & _). discriminate. }
  assert (Hev :
    raises_kind (secante f x0 x1 tol max_iter) EvaluationError <->
    f x0 = None \/ f x1 = None \/
    exists s,
      secante_reaches f x0 x1 tol max_iter s /\
      eqb (sub (s_fx s) (s_f_prev s)) zero = false /\
      secante_stops tol s = false /\ f (secante_estimate s) = None).
  { unfold raises_kind, secante_reaches, reaches, secante, safe_eval,
      secante_start.
    destruct (f x0) as [y0|]; cbn [bind];
      [destruct (f x1) as [y1|]; cbn [bind]|]; split.
    - intros (e & He & Hk). apply for_range_raise_iff in He.
      destruct He as (j & s & Hj & Hl & Hb).
      apply secante_body_raise_iff in Hb.
      destruct Hb as [[-> _]|(_ & Hz & Hstop & Hf)]; [discriminate|].
      right. right. exists s. split; [|auto]. exists y0, y1. eauto 6.
    - intros [H|[H|(s & (f_prev & fx & H0 & H1 & j & Hj & Hl) & Hz & Hstop
                      & Hf)]]; try discriminate.
      inversion H0; inversion H1; subst f_prev fx.
      exists (ValueError msg_avaliar). split; [|reflexivity].
      apply for_range_raise_iff. exists j, s. repeat split; auto.
      apply secante_body_raise_iff. right. auto.
    - intros _. auto.
    - intros _. eexists. split; reflexivity.
    - intros _. auto.
    - intros _. eexists. split; reflexivity. }
  split; [exact Hnum|]. split; [exact Hev|]. split.
  - intros [rows Hrows].
    assert (Hno : forall kd, ~ raises_kind (secante f x0 x1 tol max_iter) kd).
    { intros kd (e & He & _). congruence. }
    destruct (f x0) as [y0|] eqn:E0;
      [|exfalso; apply (Hno EvaluationError), Hev; auto].
    destruct (f x1) as [y1|] eqn:E1;
      [|exfalso; apply (Hno EvaluationError), Hev; auto].
    split; [eauto|]. intros s Hs.
    destruct (eqb (sub (s_fx s) (s_f_prev s)) zero) eqn:Ez;
      [exfalso; apply (Hno NumericError), Hnum; eauto|].
    split; [reflexivity|].
    destruct (secante_stops tol s) eqn:Est; [auto|right].
    destruct (f (secante_estimate s)) as [y|] eqn:Ef; [eauto|].
    exfalso. apply (Hno EvaluationError), Hev. right. right. eauto 6.
  - intros [(y0 & y1 & E0 & E1) Hall].
    destruct (secante f x0 x1 tol max_iter) as [rows|e] eqn:E; [eauto|].
    exfalso. unfold secante, safe_eval in E. rewrite E0, E1 in E.
    cbn [bind] in E. apply for_range_raise_iff in E.
    destruct E as (j & s & Hj & Hl & Hb).
    destruct (Hall s) as [Hz Hstop].
    { exists y0, y1. repeat split; auto. exists j. auto. }
    apply secante_body_raise_iff in Hb.
    destruct Hb as [[_ Hb]|(_ & _ & Hst & Hf)]; [congruence|].
    destruct Hstop as [Hstop|[y Hy]]; congruence.
Qed.

(** C4, the claim as first stated fails: with [f] undefined at the first
    guess no iteration is started, so no two retained values are equal,
    yet the call does not return a sequence: it ends in the evaluation
    error. *)
Lemma secante_evaluation_error_example :
  secante f_positive_Q (-1) 2 (1 # 1000000) 100 =
    Raise (ValueError msg_avaliar) /\
  classify (ValueError msg_avaliar) = EvaluationError /\
  forall s, ~ secante_reaches f_positive_Q (-1) 2 (1 # 1000000) 100 s.
Proof.
  repeat split. intros s (f_prev & fx & H & _). discriminate.
Qed.

(** ** The singularity checks come before the convergence test *)

(** C10 (as amended).  When the loop runs at least once ([max_iter >= 1]):
    if both initial guesses evaluate and [denom = f(x1) - f(x0) == 0], the
    secant method raises its zero-denominator error whatever [tol] is, so
    also when [|f(x1)| < tol]; and if [f(x0)] evaluates and [f'(x0) == 0],
    Newton's method raises its zero-derivative error whatever [tol] is. *)
Theorem singularity_checks_come_first {F : Type} {A : Arith F}
    (max_iter : Z) (Hrun : (1 <= max_iter)%Z) :
  (forall (f : expr) (x0 x1 tol y0 y1 : F),
     f x0 = Some y0 -> f x1 = Some y1 -> eqb (sub y1 y0) zero = true ->
     secante f x0 x1 tol max_iter =
       Raise (ZeroDivisionError msg_denominador_zero)) /\
  (forall (f df : expr) (x0 tol y d : F),
     f x0 = Some y -> df x0 = Some d -> eqb d zero = true ->
     newton f df x0 tol max_iter =
       Raise (ZeroDivisionError msg_derivada_zero)).
Proof.
  assert (Hn : exists n, Z.to_nat max_iter = S n).
  { exists (Z.to_nat (max_iter - 1)). lia. }
  destruct Hn as [n Hn]. split.
  - intros f x0 x1 tol y0 y1 H0 H1 Hz.
    unfold secante, safe_eval. rewrite H0, H1, Hn. simpl.
    unfold secante_body. simpl. rewrite Hz. reflexivity.
  - intros f df x0 tol y d Hf Hd Hz.
    unfold newton. rewrite Hn. simpl.
    unfold newton_body, safe_eval. rewrite Hf, Hd. simpl.
    rewrite Hz. reflexivity.
Qed.

Lemma singularity_checks_come_first_witness :
  (secante f_sq1_Q (-1) 1 (1 # 1000000) 100 =
     Raise (ZeroDivisionError msg_denominador_zero) /\
   ltb (abs (0 # 1)%Q) (1 # 1000000)%Q = true) /\
  newton f_sq_Q df_sq2_Q 0 (1 # 1000000) 100 =
    Raise (ZeroDivisionError msg_derivada_zero).
Proof.
  pose proof (@singularity_checks_come_first Q Q_arith 100 ltac:(lia))
    as [Hs Hn].
  split; [split|].
  - apply (Hs f_sq1_Q (-1) 1 (1 # 1000000) (0 # 1) (0 # 1))%Q; reflexivity.
  - reflexivity.
  - apply (Hn f_sq_Q df_sq2_Q 0 (1 # 1000000) (0 # 1) (0 # 1))%Q; reflexivity.
Defined.

(** C10, the claim as first stated fails: with [max_iter = 0] the loop
    body never runs, and the call returns the empty sequence although
    [f(x0) = f(x1)] (here both are 0); likewise Newton with a zero
    derivative at [x0]. *)
Lemma singularity_unchecked_without_iterations :
  f_sq1_Q (-1) = Some (0 # 1) /\ f_sq1_Q 1 = Some (0 # 1) /\
  secante f_sq1_Q (-1) 1 (1 # 1000000) 0 = Ok [] /\
  df_sq2_Q 0 = Some (0 # 1) /\
  newton f_sq_Q df_sq2_Q 0 (1 # 1000000) 0 = Ok [].
Proof. repeat split. Qed.

(** ** Order of update and test in Newton's method *)

Section NewtonOrder.
Context {F : Type} {A : Arith F}.
Local Open Scope py_scope.

(** What an iteration that does not raise has computed. *)
Lemma newton_body_ok (f df : expr) (tol : F) (k : Z) (x : F)
    (r : newton_row) (c : ctl F) :
  newton_body f df tol k x = Ok (r, c) ->
  exists fx dfx,
    f x = Some fx /\ df x = Some dfx /\ (dfx ==? zero) = false /\
    r = {| nr_iter := k; nr_x := x - div fx dfx; nr_fx := fx;
           nr_dfx := dfx; nr_erro := abs (x - div fx dfx - x) |} /\
    c = if (abs fx <? tol) || (abs (x - div fx dfx - x) <? tol)
        then Break (x - div fx dfx) else Continue (x - div fx dfx).
Proof.
  unfold newton_body, safe_eval, py_div.
  destruct (f x) as [fx|]; simpl; [|discriminate].
  destruct (df x) as [dfx|]; simpl; [|discriminate].
  destruct (dfx ==? zero) eqn:Hd; simpl; [discriminate|].
  intros H. exists fx, dfx. repeat split; auto.
  - destruct (_ || _); inversion H; reflexivity.
  - destruct (_ || _); inversion H; reflexivity.
Qed.
End NewtonOrder.

(** C5.  Take any iteration that a run of Newton's method starts, at the
    iterate [x], and that does not raise.  Its record holds the value [fx]
    of [f] at [x] (before the update), the new estimate
    [x_new = x - fx / dfx] in its field [x], and the step
    [erro = |x_new - x|].  The iteration leaves the loop exactly when
    [|fx| < tol] or [erro < tol]; either way the local [x] then holds
    [x_new]; and when it leaves the loop, the call returns a sequence whose
    last record is the one of this iteration. *)
Theorem newton_update_then_test {F : Type} {A : Arith F}
    (f df : expr) (x0 tol : F) (max_iter : Z) (j : nat) (x : F)
    (r : newton_row) (c : ctl F) :
  (j < Z.to_nat max_iter)%nat ->
  locals_after (newton_body f df tol) j 1 x0 = Some x ->
  newton_body f df tol (1 + Z.of_nat j) x = Ok (r, c) ->
  exists fx dfx x_new erro,
    f x = Some fx /\ df x = Some dfx /\
    x_new = sub x (div fx dfx) /\ erro = abs (sub x_new x) /\
    nr_fx r = fx /\ nr_erro r = erro /\ nr_x r = x_new /\
    (c = Break x_new \/ c = Continue x_new) /\
    (c = Break x_new <->
     ltb (abs fx) tol = true \/ ltb erro tol = true) /\
    (c = Break x_new ->
     exists rows,
       newton f df x0 tol max_iter = Ok rows /\
       length rows = S j /\ nth_error rows j = Some r).
Proof.
  intros Hj Hl Hb.
  destruct (newton_body_ok _ _ _ _ _ Hb) as (fx & dfx & Hf & Hd & _ & Hr & Hc).
  exists fx, dfx, (sub x (div fx dfx)), (abs (sub (sub x (div fx dfx)) x)).
  repeat split; auto; try (subst r; reflexivity).
  - destruct (_ || _) in Hc; auto.
  - intros E. rewrite E in Hc.
    destruct (ltb (abs fx) tol); [left; reflexivity|].
    destruct (ltb _ tol); [right; reflexivity|].
    simpl in Hc. discriminate.
  - intros [H|H]; rewrite H in Hc; [|rewrite orb_true_r in Hc]; exact Hc.
  - intros E. eapply for_range_break; [exact Hj | exact Hl |].
    rewrite <- E. exact Hb.
Qed.

Lemma newton_update_then_test_witness :
  exists rows,
    newton f_sq2_Q df_sq2_Q 1 2 100 = Ok rows /\ length rows = 1%nat.
Proof.
  destruct (@newton_update_then_test Q Q_arith f_sq2_Q df_sq2_Q 1 2 100 0 1
              {| nr_iter := 1; nr_x := (1 - (1 * 1 - 2) / (2 * 1))%Q;
                 nr_fx := (1 * 1 - 2)%Q; nr_dfx := (2 * 1)%Q;
                 nr_erro := Qabs (1 - (1 * 1 - 2) / (2 * 1) - 1) |}
              (Break (1 - (1 * 1 - 2) / (2 * 1))%Q))
    as (fx & dfx & x_new & erro & H1 & H2 & H3 & H4 & _ & _ & _ & _ & H9 & H10).
  - vm_compute; lia.
  - reflexivity.
  - reflexivity.
  - inversion H1; inversion H2; subst fx dfx x_new.
    destruct (H10 eq_refl) as (rows & Hr & Hlen & _).
    exists rows. split; assumption.
Defined.

(** ** Length and numbering of the returned sequence *)

Section Numbering.
Variables St R : Type.
Variable body : Z -> St -> result (R * ctl St).
Variable iter : R -> Z.
Hypothesis body_iter : forall k s r c, body k s = Ok (r, c) -> iter r = k.

Lemma for_range_well_numbered (max_iter : Z) (s : St) (rows : list R) :
  (0 < max_iter)%Z ->
  for_range body (Z.to_nat max_iter) 1 s = Ok rows ->
  well_numbered iter max_iter rows.
Proof.
  intros Hpos H. repeat split.
  - destruct (Z.to_nat max_iter) as [|n] eqn:E; [lia|].
    eapply for_range_nonempty; eauto.
  - apply for_range_length in H. lia.
  - intros i r Hi.
    destruct (for_range_nth _ _ _ _ _ H Hi) as (s' & c & _ & Hb & _).
    apply body_iter in Hb. lia.
Qed.
End Numbering.

Section BodyIter.
Context {F : Type} {A : Arith F}.
Local Open Scope py_scope.

Lemma bracket_rest_iter (f : expr) (tol : F) (k : Z) (s : bracket_locals)
    (c0 : F) (r : bracket_row) (c : ctl bracket_locals) :
  bracket_rest f tol k s c0 = Ok (r, c) -> br_iter r = k.
Proof.
  unfold bracket_rest, safe_eval. destruct (f c0); simpl; [|discriminate].
  destruct (_ || _); [|destruct (_ <? _)];
    intros H; inversion H; reflexivity.
Qed.

Lemma bisseccao_body_iter (f : expr) (tol : F) (k : Z) (s : bracket_locals)
    (r : bracket_row) (c : ctl bracket_locals) :
  bisseccao_body f tol k s = Ok (r, c) -> br_iter r = k.
Proof. apply bracket_rest_iter. Qed.

Lemma regula_falsi_body_iter (f : expr) (tol : F) (k : Z)
    (s : bracket_locals) (r : bracket_row) (c : ctl bracket_locals) :
  regula_falsi_body f tol k s = Ok (r, c) -> br_iter r = k.
Proof.
  unfold regula_falsi_body, py_div. destruct (_ ==? _); simpl;
    [discriminate|]. apply bracket_rest_iter.
Qed.

Lemma iterativo_linear_body_ok (g : expr) (tol : F) (k : Z) (x_prev : F)
    (r : linear_row) (c : ctl F) :
  iterativo_linear_body g tol k x_prev = Ok (r, c) ->
  exists x,
    g x_prev = Some x /\
    r = {| lr_iter := k; lr_x := x; lr_g_x_prev := x;
           lr_erro := abs (x - x_prev) |} /\
    c = if abs (x - x_prev) <? tol then Break x_prev else Continue x.
Proof.
  unfold iterativo_linear_body, safe_eval.
  destruct (g x_prev) as [x|]; simpl; [|discriminate].
  intros H. exists x.
  destruct (_ <? _); inversion H; auto.
Qed.

Lemma iterativo_linear_body_iter (g : expr) (tol : F) (k : Z) (x_prev : F)
    (r : linear_row) (c : ctl F) :
  iterativo_linear_body g tol k x_prev = Ok (r, c) -> lr_iter r = k.
Proof.
  intros H. apply iterativo_linear_body_ok in H.
  destruct H as (x & _ & -> & _). reflexivity.
Qed.

Lemma newton_body_iter (f df : expr) (tol : F) (k : Z) (x : F)
    (r : newton_row) (c : ctl F) :
  newton_body f df tol k x = Ok (r, c) -> nr_iter r = k.
Proof.
  intros H. apply newton_body_ok in H.
  destruct H as (fx & dfx & _ & _ & _ & -> & _). reflexivity.
Qed.

Lemma secante_body_iter (f : expr) (tol : F) (k : Z) (s : secante_locals)
    (r : secante_row) (c : ctl secante_locals) :
  secante_body f tol k s = Ok (r, c) -> sr_iter r = k.
Proof.
  unfold secante_body, py_div. destruct (_ ==? _); simpl; [discriminate|].
  destruct (_ || _).
  - intros H; inversion H; reflexivity.
  - unfold safe_eval. destruct (f _); simpl; [|discriminate].
    intros H; inversion H; reflexivity.
Qed.
End BodyIter.

Section Returns.
Context {F : Type} {A : Arith F}.
Local Open Scope py_scope.

Lemma bracket_rest_returns (f : expr) (tol : F) (k : Z) (s : bracket_locals)
    (c : F) :
  evaluates f -> exists v, bracket_rest f tol k s c = Ok v.
Proof.
  intros Hf. unfold bracket_rest, safe_eval.
  destruct (f c) as [fc|] eqn:Ec; [|exfalso; exact (Hf _ Ec)].
  cbn [bind]. destruct (_ || _); [eauto|]. destruct (_ <? zero); eauto.
Qed.

Lemma bisseccao_returns (f : expr) (a b tol : F) (max_iter : Z) :
  bisseccao_valid f a b -> exists rows, bisseccao f a b tol max_iter = Ok rows.
Proof.
  intros [Hf Hs]. unfold bisseccao, safe_eval.
  destruct (f a) as [fa|] eqn:Ea; [|exfalso; exact (Hf _ Ea)].
  destruct (f b) as [fb|] eqn:Eb; [|exfalso; exact (Hf _ Eb)].
  cbn [bind]. rewrite (Hs _ _ Ea Eb).
  apply for_range_returns. intros j s _ _.
  apply bracket_rest_returns. exact Hf.
Qed.

Lemma regula_falsi_returns (f : expr) (a b tol : F) (max_iter : Z) :
  regula_falsi_valid f a b tol max_iter ->
  exists rows, regula_falsi f a b tol max_iter = Ok rows.
Proof.
  intros (Hf & Hs & Hd). unfold regula_falsi, safe_eval.
  destruct (f a) as [fa|] eqn:Ea; [|exfalso; exact (Hf _ Ea)].
  destruct (f b) as [fb|] eqn:Eb; [|exfalso; exact (Hf _ Eb)].
  cbn [bind]. rewrite (Hs _ _ Ea Eb).
  apply for_range_returns. intros j s Hj Hl.
  unfold regula_falsi_body, py_div. rewrite Hd.
  - cbn [bind]. apply bracket_rest_returns. exact Hf.
  - exists fa, fb. repeat split; auto. exists j. auto.
Qed.

Lemma iterativo_linear_returns (g : expr) (x0 tol : F) (max_iter : Z) :
  evaluates g -> exists rows, iterativo_linear g x0 tol max_iter = Ok rows.
Proof.
  intros Hg. apply for_range_returns. intros j s _ _.
  unfold iterativo_linear_body, safe_eval.
  destruct (g s) as [x|] eqn:E; [|exfalso; exact (Hg _ E)].
  cbn [bind]. destruct (_ <? _); eauto.
Qed.

Lemma newton_returns (f df : expr) (x0 tol : F) (max_iter : Z) :
  newton_valid f df x0 tol max_iter ->
  exists rows, newton f df x0 tol max_iter = Ok rows.
Proof.
  intros (Hf & Hdf & Hd). apply for_range_returns. intros j x Hj Hl.
  destruct (newton_body f df tol (1 + Z.of_nat j) x) as [v|e] eqn:E;
    [eauto|exfalso].
  apply newton_body_raise in E.
  destruct E as [[_ [E|(fx & _ & E)]]|[_ (fx & d & _ & E & Hz)]].
  - exact (Hf _ E).
  - exact (Hdf _ E).
  - rewrite (Hd x d) in Hz; [discriminate | exists j; auto | exact E].
Qed.

Lemma secante_returns (f : expr) (x0 x1 tol : F) (max_iter : Z) :
  secante_valid f x0 x1 tol max_iter ->
  exists rows, secante f x0 x1 tol max_iter = Ok rows.
Proof.
  intros (Hf & Hd). unfold secante, safe_eval.
  destruct (f x0) as [y0|] eqn:E0; [|exfalso; exact (Hf _ E0)].
  destruct (f x1) as [y1|] eqn:E1; [|exfalso; exact (Hf _ E1)].
  cbn [bind]. apply for_range_returns. intros j s Hj Hl.
  unfold secante_body, py_div. rewrite Hd.
  - cbn [bind]. cbv zeta. destruct (_ || _); [eexists; reflexivity|].
    unfold safe_eval.
    match goal with
    | |- context [f ?z] =>
        destruct (f z) as [y|] eqn:E; [|exfalso; exact (Hf _ E)]
    end.
    cbn [bind]. eexists; reflexivity.
  - exists y0, y1. repeat split; auto. exists j. auto.
Qed.
End Returns.

(** C8.  With [max_iter] positive, each of the five methods, called with
    valid inputs (every evaluation succeeds, the sign test passes, no
    iteration meets a singularity), returns a sequence; and every sequence
    a method returns has at least 1 and at most [max_iter] records, the
    k-th of which carries [iter = k]. *)
Theorem returned_sequence_well_numbered {F : Type} {A : Arith F}
    (max_iter : Z) (Hpos : (0 < max_iter)%Z) :
  (forall (f : expr) (a b tol : F),
     returns_well_numbered br_iter max_iter
       (bisseccao_valid f a b) (bisseccao f a b tol max_iter)) /\
  (forall (f : expr) (a b tol : F),
     returns_well_numbered br_iter max_iter
       (regula_falsi_valid f a b tol max_iter)
       (regula_falsi f a b tol max_iter)) /\
  (forall (g : expr) (x0 tol : F),
     returns_well_numbered lr_iter max_iter
       (evaluates g) (iterativo_linear g x0 tol max_iter)) /\
  (forall (f df : expr) (x0 tol : F),
     returns_well_numbered nr_iter max_iter
       (newton_valid f df x0 tol max_iter) (newton f df x0 tol max_iter)) /\
  (forall (f : expr) (x0 x1 tol : F),
     returns_well_numbered sr_iter max_iter
       (secante_valid f x0 x1 tol max_iter)
       (secante f x0 x1 tol max_iter)).
Proof.
  unfold returns_well_numbered.
  split; [|split; [|split; [|split]]]; intros; split;
    try solve [ apply bisseccao_returns | apply regula_falsi_returns
              | apply iterativo_linear_returns | apply newton_returns
              | apply secante_returns ];
    intros rows H.
  all: try match goal with
       | H : bisseccao _ _ _ _ _ = Ok _ |- _ =>
           unfold bisseccao, safe_eval in H
       | H : regula_falsi _ _ _ _ _ = Ok _ |- _ =>
           unfold regula_falsi, safe_eval in H
       | H : secante _ _ _ _ _ = Ok _ |- _ =>
           unfold secante, safe_eval in H
       | H : newton _ _ _ _ _ = Ok _ |- _ => unfold newton in H
       | H : iterativo_linear _ _ _ _ = Ok _ |- _ =>
           unfold iterativo_linear in H
       end.
  all: repeat match goal with
       | H : context [match ?f ?x with Some _ => _ | None => _ end] |- _ =>
           destruct (f x); simpl in H; try discriminate
       | H : (if ?b then Raise _ else _) = Ok _ |- _ =>
           destruct b; try discriminate
       end.
  all: match goal with
       | H : for_range _ _ _ _ = Ok ?rows |- well_numbered _ _ ?rows =>
           eapply for_range_well_numbered; [| exact Hpos | exact H]
       end.
  - apply bisseccao_body_iter.
  - apply regula_falsi_body_iter.
  - apply iterativo_linear_body_iter.
  - apply newton_body_iter.
  - apply secante_body_iter.
Qed.

Lemma returned_sequence_well_numbered_witness :
  exists rows,
    bisseccao f_sq2_Q 0 2 (1 # 10) 5 = Ok rows /\
    well_numbered br_iter 5 rows.
Proof.
  destruct (proj1 (@returned_sequence_well_numbered Q Q_arith 5 eq_refl)
              f_sq2_Q 0 2 (1 # 10))%Q as [Hret Hnum].
  destruct Hret as [rows Hrows].
  - split.
    + intros x. discriminate.
    + intros fa fb Ha Hb. inversion Ha. inversion Hb. reflexivity.
  - exists rows. split; [exact Hrows | exact (Hnum rows Hrows)].
Defined.

(** ** Fixed-point iteration *)

Section LinearFacts.
Context {F : Type} {A : Arith F}.
Local Open Scope py_scope.


End LinearFacts.



(** The same run in exact arithmetic: three records, the estimates 1,
    3/2 and 7/4, stopping when the step 1/4 is below the tolerance 1/2. *)
Lemma iterativo_linear_example :
  exists r1 r2 r3,
    iterativo_linear g_half_Q 0 (1 # 2) 100 = Ok [r1; r2; r3] /\
    (lr_x r1 == 1)%Q /\ (lr_x r2 == 3 # 2)%Q /\ (lr_x r3 == 7 # 4)%Q /\
    (lr_erro r2 == 1 # 2)%Q /\ (lr_erro r3 == 1 # 4)%Q.
Proof. do 3 eexists. repeat split. Qed.

(** ** Exact arithmetic *)

Section ExactFacts.
Local Open Scope Q_scope.

Lemma Q_ltb_true (x y : Q) : ltb x y = true <-> x < y.
Proof.
  simpl. rewrite negb_true_iff, <- not_true_iff_false, Qle_bool_iff.
  split; [apply Qnot_le_lt | apply Qlt_not_le].
Qed.

Lemma Q_ltb_false (x y : Q) : ltb x y = false <-> y <= x.
Proof. simpl. rewrite negb_false_iff. apply Qle_bool_iff. Qed.

(** In exact arithmetic the divisor test [y1 - y0 == 0] is equality of
    the two values. *)
Lemma Q_zero_divisor_iff (y1 y0 : Q) :
  eqb (sub y1 y0) zero = true <-> y1 == y0.
Proof. simpl. rewrite Qeq_bool_iff. split; intros H; lra. Qed.

(** What a bracketing iteration that does not raise has computed. *)
Lemma bracket_rest_ok {F : Type} {A : Arith F} (f : expr) (tol : F) (k : Z)
    (s : bracket_locals) (c0 : F) (r : bracket_row)
    (c : ctl bracket_locals) :
  bracket_rest f tol k s c0 = Ok (r, c) ->
  exists fc,
    f c0 = Some fc /\
    br_a r = l_a s /\ br_b r = l_b s /\ br_x r = c0 /\ br_fx r = fc /\
    c = if (ltb (abs fc) tol || step_small c0 (l_x_prev s) tol)%bool
        then Break s
        else if ltb (mul (l_fa s) fc) zero
        then Continue {| l_a := l_a s; l_b := c0; l_fa := l_fa s;
                         l_fb := fc; l_x_prev := Some c0 |}
        else Continue {| l_a := c0; l_b := l_b s; l_fa := fc;
                         l_fb := l_fb s; l_x_prev := Some c0 |}.
Proof.
  unfold bracket_rest, safe_eval. destruct (f c0) as [fc|]; simpl;
    [|discriminate].
  intros H. exists fc. split; [reflexivity|].
  destruct (_ || _)%bool; [|destruct (ltb _ zero)]; inversion H; simpl; auto 6.
Qed.

(** The midpoint halves the bracket, whichever end it replaces. *)
Lemma bisseccao_body_halves (f : @expr Q) (tol : Q) (k : Z)
    (s s' : bracket_locals) (r : bracket_row) :
  bisseccao_body f tol k s = Ok (r, Continue s') ->
  l_b s' - l_a s' == (l_b s - l_a s) / 2.
Proof.
  unfold bisseccao_body. intros H. apply bracket_rest_ok in H.
  destruct H as (fc & _ & _ & _ & _ & _ & Hc).
  destruct (_ || _)%bool; [discriminate|].
  destruct (ltb _ zero); inversion Hc; subst s'; simpl; field.
Qed.

Lemma Qmult_pos_neg (x y : Q) : 0 < x -> y < 0 -> x * y < 0.
Proof.
  intros Hx Hy. pose proof (Qmult_lt_0_compat x (- y) Hx ltac:(lra)). lra.
Qed.

Lemma Qmult_neg_inv (x y : Q) : 0 < x -> x * y < 0 -> y < 0.
Proof.
  intros Hx Hxy. destruct (Qlt_le_dec y 0) as [H|H]; [exact H|].
  pose proof (Qmult_le_0_compat x y ltac:(lra) H). lra.
Qed.

(** In exact arithmetic every product has the sign of its factors, and
    with a positive tolerance every value the stopping test lets through
    is non-zero: the hypotheses on the signs of a run always hold. *)
Lemma Q_product_sign_exact (x y : Q) : product_sign_exact x y.
Proof.
  unfold product_sign_exact, opposite_signs.
  rewrite !Q_ltb_true. simpl. split.
  - intros H. destruct (Qlt_le_dec 0 x) as [Hx|Hx].
    + right. split; [exact Hx | eapply Qmult_neg_inv; eauto].
    + left. assert (Hx' : x < 0).
      { destruct (Qlt_le_dec x 0) as [Hlt|Hge]; [exact Hlt|].
        assert (E : x == 0) by lra. rewrite E in H. lra. }
      split; [exact Hx'|].
      assert (Hy : - y < 0).
      { apply (@Qmult_neg_inv (- x)); [lra|]. lra. }
      lra.
  - intros [[Hx Hy]|[Hx Hy]].
    + rewrite Qmult_comm. apply Qmult_pos_neg; assumption.
    + apply Qmult_pos_neg; assumption.
Qed.

Lemma Q_signs_exact (f : @expr Q) (tol : Q) (s : bracket_locals) (c : Q) :
  signs_exact f tol s c.
Proof.
  intros fc _. repeat split; try apply Q_product_sign_exact.
  intros Htol Habs. apply Q_ltb_true in Htol. apply Q_ltb_false in Habs.
  rewrite !Q_ltb_true. simpl in *.
  destruct (Qlt_le_dec fc 0) as [H|H]; [left; exact H|right].
  destruct (Qlt_le_dec 0 fc) as [H'|H']; [exact H'|].
  assert (E : fc == 0) by lra. rewrite E in Habs. simpl in Habs. lra.
Qed.
End ExactFacts.

(** ** Halving of the bisection bracket *)

(** C7.  In exact arithmetic, for any two consecutive records of a
    sequence returned by bisection, the width [b - a] of the later one is
    half the width of the earlier one. *)
Theorem bisseccao_width_halved (f : @expr Q) (a b tol : Q) (max_iter : Z)
    (rows : list bracket_row) (k : nat) (r r' : bracket_row) :
  bisseccao f a b tol max_iter = Ok rows ->
  nth_error rows k = Some r ->
  nth_error rows (S k) = Some r' ->
  (br_b r' - br_a r' == (br_b r - br_a r) / 2)%Q.
Proof.
  unfold bisseccao, safe_eval.
  destruct (f a) as [fa|]; cbn [bind]; [|discriminate].
  destruct (f b) as [fb|]; cbn [bind]; [|discriminate].
  destruct (ltb zero (mul fa fb)); [discriminate|].
  intros H Hk Hk'.
  destruct (for_range_nth _ _ _ _ _ H Hk) as (s & c & Hl & Hb & _).
  destruct (for_range_nth _ _ _ _ _ H Hk') as (s' & c' & Hl' & Hb' & _).
  apply locals_after_succ in Hl'. destruct Hl' as (s1 & r1 & Hl1 & Hb1).
  rewrite Hl in Hl1. inversion Hl1; subst s1.
  rewrite Hb in Hb1. inversion Hb1; subst r1 c.
  pose proof (bisseccao_body_halves _ _ _ _ Hb) as Hw.
  unfold bisseccao_body in Hb, Hb'.
  apply bracket_rest_ok in Hb. apply bracket_rest_ok in Hb'.
  destruct Hb as (fc & _ & Ea & Eb & _).
  destruct Hb' as (fc' & _ & Ea' & Eb' & _).
  rewrite Ea, Eb, Ea', Eb'. exact Hw.
Qed.

Lemma bisseccao_width_halved_witness :
  ((6 # 4) - (2 # 2) == (2 - (2 # 2)) / 2)%Q.
Proof.
  exact (@bisseccao_width_halved f_sq2_Q 0 2 (1 # 10) 5 _ 1
           {| br_iter := 2; br_a := 2 # 2; br_b := 2; br_x := 6 # 4;
              br_fx := 4 # 16; br_erro := Some (4 # 8) |}
           {| br_iter := 3; br_a := 2 # 2; br_b := 6 # 4;
              br_x := 20 # 16; br_fx := -112 # 256;
              br_erro := Some (16 # 64) |}
           eq_refl eq_refl eq_refl).
Defined.

(** ** The recorded bracket keeps its sign change *)

Section SignChange.
Context {F : Type} {A : Arith F}.
Local Open Scope py_scope.
Variable f : @expr F.
Variable tol : F.
Hypothesis tol_pos : (zero <? tol) = true.





End SignChange.






(** In binary64 the sign test [fa * fc < 0] can fail by underflow even
    with a positive tolerance.  For [f = "x"], [a = -1e-320], [b = 1],
    [tol = 1e-6] (the doubles Python reads from these literals) the
    product [fa * fc] at the twelfth midpoint [2^-12] rounds to [-0.0], so
    the midpoint replaces [a]; from the thirteenth record on both ends are
    positive, and the run stops at the twentieth record far from the root 0. *)
Lemma bisseccao_float_underflow_example :
  exists rows r13 r20,
    bisseccao f_x_float (-0x0.00000000007e8p-1022)%float 1%float
      0x1.0c6f7a0b5ed8dp-20%float 100 = Ok rows /\
    length rows = 20%nat /\
    nth_error rows 12 = Some r13 /\ nth_error rows 19 = Some r20 /\
    br_a r13 = 0x1p-12%float /\ br_b r13 = 0x1p-11%float /\
    PrimFloat.ltb 0%float (br_a r13 * br_b r13)%float = true /\
    PrimFloat.ltb 0x1.fep-12%float (br_x r20) = true.
Proof.
  do 3 eexists. split; [vm_compute; reflexivity|].
  repeat split.
Qed.

(** ** Consecutive records *)

Section Consecutive.
Variables St R : Type.
Variable body : Z -> St -> result (R * ctl St).

(** Two consecutive records come from two consecutive iterations, the
    first of which fell through to the second. *)
Lemma for_range_consecutive (n : nat) (k : Z) (s0 : St) (rows : list R)
    (i : nat) (r r' : R) :
  for_range body n k s0 = Ok rows ->
  nth_error rows i = Some r ->
  nth_error rows (S i) = Some r' ->
  exists s s' c',
    locals_after body i k s0 = Some s /\
    body (k + Z.of_nat i) s = Ok (r, Continue s') /\
    body (k + Z.of_nat (S i)) s' = Ok (r', c').
Proof.
  intros H Hi Hi'.
  destruct (for_range_nth _ _ _ _ _ H Hi) as (s & c & Hl & Hb & _).
  destruct (for_range_nth _ _ _ _ _ H Hi') as (s' & c' & Hl' & Hb' & _).
  apply locals_after_succ in Hl'. destruct Hl' as (s1 & r1 & Hl1 & Hb1).
  rewrite Hl in Hl1. inversion Hl1; subst s1.
  rewrite Hb in Hb1. inversion Hb1; subst r1 c.
  exists s, s', c'. auto.
Qed.

(** How the last record relates to the way its iteration ended. *)
Lemma for_range_last (n : nat) (k : Z) (s0 : St) (rows : list R)
    (i : nat) (r : R) :
  for_range body n k s0 = Ok rows ->
  nth_error rows i = Some r ->
  exists s c,
    locals_after body i k s0 = Some s /\
    body (k + Z.of_nat i) s = Ok (r, c) /\
    ((S i < length rows)%nat -> exists s', c = Continue s') /\
    (S i = length rows -> (exists s', c = Break s') \/ length rows = n).
Proof.
  intros H Hi.
  destruct (for_range_nth _ _ _ _ _ H Hi) as (s & c & Hl & Hb & Hc).
  exists s, c. repeat split; auto.
  - intros Hlt. destruct c as [t|t]; [lia | eauto].
  - intros Heq. destruct c as [t|t]; [eauto|].
    destruct Hc as [Hc|[_ Hc]]; [lia | auto].
Qed.
End Consecutive.

(** ** Records of the bracketing methods *)

Section BracketRows.
Context {F : Type} {A : Arith F}.
Local Open Scope py_scope.

(** Everything a bracketing iteration that does not raise has done. *)
Lemma bracket_rest_inv (f : expr) (tol : F) (k : Z) (s : bracket_locals)
    (c0 : F) (r : bracket_row) (c : ctl bracket_locals) :
  bracket_rest f tol k s c0 = Ok (r, c) ->
  exists fc,
    f c0 = Some fc /\
    r = {| br_iter := k; br_a := l_a s; br_b := l_b s; br_x := c0;
           br_fx := fc;
           br_erro := match l_x_prev s with
                      | Some xp => Some (abs (c0 - xp))
                      | None => None
                      end |} /\
    ((exists t, c = Break t) <-> bracket_row_converged tol r = true) /\
    (forall s', c = Continue s' ->
       l_x_prev s' = Some c0 /\
       ((l_a s' = l_a s /\ l_b s' = c0) \/ (l_a s' = c0 /\ l_b s' = l_b s))).
Proof.
  unfold bracket_rest, safe_eval. destruct (f c0) as [fc|]; cbn [bind];
    [|discriminate].
  cbv zeta. intros H. exists fc. split; [reflexivity|].
  assert (Econv : forall r0,
            r0 = {| br_iter := k; br_a := l_a s; br_b := l_b s; br_x := c0;
                    br_fx := fc;
                    br_erro := match l_x_prev s with
                               | Some xp => Some (abs (c0 - xp))
                               | None => None
                               end |} ->
            bracket_row_converged tol r0 =
            (abs fc <? tol) || step_small c0 (l_x_prev s) tol).
  { intros r0 ->. unfold bracket_row_converged, step_small. simpl.
    destruct (l_x_prev s); reflexivity. }
  destruct ((abs fc <? tol) || step_small c0 (l_x_prev s) tol) eqn:Et.
  - inversion H; subst r c. split; [reflexivity|].
    rewrite (Econv _ eq_refl). split.
    + split; [reflexivity | eauto].
    + intros s' E. discriminate.
  - assert (Hr : r = {| br_iter := k; br_a := l_a s; br_b := l_b s;
                        br_x := c0; br_fx := fc;
                        br_erro := match l_x_prev s with
                                   | Some xp => Some (abs (c0 - xp))
                                   | None => None
                                   end |}).
    { destruct (_ <? zero); inversion H; reflexivity. }
    split; [exact Hr|]. rewrite (Econv _ Hr). split.
    + split; [|discriminate]. intros [t E].
      destruct (_ <? zero); rewrite E in H; discriminate.
    + intros s' E. rewrite E in H.
      destruct (_ <? zero); inversion H; simpl; auto.
Qed.

Variable f : @expr F.
Variable tol : F.
Variable body :
  Z -> @bracket_locals F ->
  result (@bracket_row F * ctl (@bracket_locals F)).
Hypothesis body_rest : forall k s r c,
  body k s = Ok (r, c) -> exists c0, bracket_rest f tol k s c0 = Ok (r, c).

Lemma bracket_loop_first (n : nat) (s0 : bracket_locals)
    (rows : list bracket_row) (r : bracket_row) :
  for_range body n 1 s0 = Ok rows -> nth_error rows 0 = Some r ->
  br_a r = l_a s0 /\ br_b r = l_b s0 /\
  (l_x_prev s0 = None -> br_erro r = None).
Proof.
  intros H H0.
  destruct (for_range_nth _ _ _ _ _ H H0) as (s & c & Hl & Hb & _).
  simpl in Hl. inversion Hl; subst s.
  apply body_rest in Hb. destruct Hb as [c0 Hb].
  apply bracket_rest_inv in Hb. destruct Hb as (fc & _ & -> & _).
  simpl. repeat split. intros ->. reflexivity.
Qed.

Lemma bracket_loop_consecutive (n : nat) (s0 : bracket_locals)
    (rows : list bracket_row) (i : nat) (r r' : bracket_row) :
  for_range body n 1 s0 = Ok rows ->
  nth_error rows i = Some r -> nth_error rows (S i) = Some r' ->
  ((br_a r' = br_a r /\ br_b r' = br_x r) \/
   (br_a r' = br_x r /\ br_b r' = br_b r)) /\
  br_erro r' = Some (abs (br_x r' - br_x r)).
Proof.
  intros H Hi Hi'.
  destruct (for_range_consecutive _ _ _ _ _ H Hi Hi')
    as (s & s' & c' & _ & Hb & Hb').
  apply body_rest in Hb. destruct Hb as [c0 Hb].
  apply body_rest in Hb'. destruct Hb' as [c0' Hb'].
  apply bracket_rest_inv in Hb. destruct Hb as (fc & _ & -> & _ & Hs).
  apply bracket_rest_inv in Hb'. destruct Hb' as (fc' & _ & -> & _).
  destruct (Hs s' eq_refl) as [Hx Hab]. simpl. rewrite Hx.
  split; [|reflexivity].
  destruct Hab as [[-> ->]|[-> ->]]; auto.
Qed.

Lemma bracket_loop_stop (n : nat) (s0 : bracket_locals)
    (rows : list bracket_row) (i : nat) (r : bracket_row) :
  for_range body n 1 s0 = Ok rows -> nth_error rows i = Some r ->
  f (br_x r) = Some (br_fx r) /\
  ((S i < length rows)%nat -> bracket_row_converged tol r = false) /\
  (S i = length rows ->
   bracket_row_converged tol r = true \/ length rows = n).
Proof.
  intros H Hi.
  destruct (for_range_last _ _ _ _ _ H Hi) as (s & c & _ & Hb & Hlt & Heq).
  apply body_rest in Hb. destruct Hb as [c0 Hb].
  apply bracket_rest_inv in Hb. destruct Hb as (fc & Hf & Hr & Hconv & _).
  split; [rewrite Hr; exact Hf|]. split.
  - intros Hl. destruct (Hlt Hl) as [s' ->].
    destruct (bracket_row_converged tol r); [|reflexivity].
    destruct (proj2 Hconv eq_refl) as [t E]. discriminate.
  - intros Hl. destruct (Heq Hl) as [Hbr|Hn]; [left|right; exact Hn].
    apply Hconv. exact Hbr.
Qed.
End BracketRows.

Section BracketReturns.
Context {F : Type} {A : Arith F}.
Local Open Scope py_scope.

(** A returned sequence of either bracketing method is the output of a
    loop whose iterations all end in [bracket_rest]. *)
Lemma bracket_returns_loop (f : expr) (a b tol : F) (max_iter : Z)
    (rows : list bracket_row) :
  bracket_returns f a b tol max_iter rows ->
  exists fa fb body,
    f a = Some fa /\ f b = Some fb /\ (zero <? fa * fb) = false /\
    (forall k s r c, body k s = Ok (r, c) ->
                     exists c0, bracket_rest f tol k s c0 = Ok (r, c)) /\
    for_range body (Z.to_nat max_iter) 1 (bracket_start a b fa fb) = Ok rows.
Proof.
  unfold bracket_returns, bisseccao, regula_falsi, safe_eval.
  destruct (f a) as [fa|]; cbn [bind];
    [|intros [H|H]; discriminate].
  destruct (f b) as [fb|]; cbn [bind];
    [|intros [H|H]; discriminate].
  destruct (zero <? fa * fb) eqn:Hs; [intros [H|H]; discriminate|].
  intros [H|H].
  - exists fa, fb, (bisseccao_body f tol). repeat split; auto.
    intros k s r c Hb. unfold bisseccao_body in Hb. eauto.
  - exists fa, fb, (regula_falsi_body f tol). repeat split; auto.
    intros k s r c Hb. unfold regula_falsi_body, py_div in Hb.
    destruct (_ ==? zero); cbn [bind] in Hb; [discriminate|]. eauto.
Qed.
End BracketReturns.

(** X1.  In a sequence returned by bisection or regula falsi the first
    record carries the bracket [a, b] of the call, and each later record
    carries the bracket of the record before it with exactly one end
    replaced by that record's estimate [x]. *)
Theorem bracket_rows_replace_one_end {F : Type} {A : Arith F}
    (f : expr) (a b tol : F) (max_iter : Z) (rows : list bracket_row) :
  bracket_returns f a b tol max_iter rows ->
  (forall r, nth_error rows 0 = Some r -> br_a r = a /\ br_b r = b) /\
  (forall i r r',
     nth_error rows i = Some r -> nth_error rows (S i) = Some r' ->
     (br_a r' = br_a r /\ br_b r' = br_x r) \/
     (br_a r' = br_x r /\ br_b r' = br_b r)).
Proof.
  intros H. apply bracket_returns_loop in H.
  destruct H as (fa & fb & body & _ & _ & _ & Hbody & H). split.
  - intros r H0.
    edestruct bracket_loop_first as (Ha & Hb & _);
      [exact Hbody | exact H | exact H0 |]. auto.
  - intros i r r' Hi Hi'.
    edestruct bracket_loop_consecutive as (Hab & _);
      [exact Hbody | exact H | exact Hi | exact Hi' |]. exact Hab.
Qed.

Lemma bracket_rows_replace_one_end_witness :
  exists r, nth_error rows_bisseccao_sq2 0 = Some r /\
            br_a r = 0%Q /\ br_b r = 2%Q.
Proof.
  eexists. split; [reflexivity|].
  apply (proj1 (@bracket_rows_replace_one_end Q Q_arith f_sq2_Q 0 2 (1 # 10)
                  5 rows_bisseccao_sq2 (or_introl eq_refl)))%Q.
  reflexivity.
Defined.

(** X2.  In a sequence returned by bisection or regula falsi the field
    "erro" of the first record is the NaN marker, and in every later record
    it is [|x - x_before|], the distance between that record's estimate and
    the estimate of the record before it. *)
Theorem bracket_rows_erro {F : Type} {A : Arith F}
    (f : expr) (a b tol : F) (max_iter : Z) (rows : list bracket_row) :
  bracket_returns f a b tol max_iter rows ->
  (forall r, nth_error rows 0 = Some r -> br_erro r = None) /\
  (forall i r r',
     nth_error rows i = Some r -> nth_error rows (S i) = Some r' ->
     br_erro r' = Some (abs (sub (br_x r') (br_x r)))).
Proof.
  intros H. apply bracket_returns_loop in H.
  destruct H as (fa & fb & body & _ & _ & _ & Hbody & H). split.
  - intros r H0.
    edestruct bracket_loop_first as (_ & _ & He);
      [exact Hbody | exact H | exact H0 |]. apply He. reflexivity.
  - intros i r r' Hi Hi'.
    edestruct bracket_loop_consecutive as (_ & He);
      [exact Hbody | exact H | exact Hi | exact Hi' |]. exact He.
Qed.

Lemma bracket_rows_erro_witness :
  exists r, nth_error rows_regula_sq2 0 = Some r /\ br_erro r = None.
Proof.
  eexists. split; [reflexivity|].
  apply (proj1 (@bracket_rows_erro Q Q_arith f_sq2_Q 0 2 (1 # 10) 5
                  rows_regula_sq2 (or_intror eq_refl)))%Q.
  reflexivity.
Defined.

(** X3.  In a sequence returned by bisection or regula falsi every record
    holds in "f(x)" the value of [f] at its "x"; every record but the last
    fails the stopping test ([|f(x)| < tol], or [erro < tol] when erro is
    not NaN); and the last record passes it unless it is the
    [max_iter]-th.  So a sequence shorter than [max_iter] ends in a record
    that met the tolerance. *)
Theorem bracket_rows_stop_rule {F : Type} {A : Arith F}
    (f : expr) (a b tol : F) (max_iter : Z) (rows : list bracket_row) :
  bracket_returns f a b tol max_iter rows ->
  forall i r,
    nth_error rows i = Some r ->
    f (br_x r) = Some (br_fx r) /\
    ((S i < length rows)%nat -> bracket_row_converged tol r = false) /\
    (S i = length rows ->
     bracket_row_converged tol r = true \/
     Z.of_nat (length rows) = max_iter).
Proof.
  intros H i r Hi. apply bracket_returns_loop in H.
  destruct H as (fa & fb & body & _ & _ & _ & Hbody & H).
  edestruct bracket_loop_stop as (Hf & Hlt & Heq);
    [exact Hbody | exact H | exact Hi |].
  repeat split; auto.
  intros Hl. destruct (Heq Hl) as [Hc|Hn]; [left; exact Hc | right; lia].
Qed.

Lemma bracket_rows_stop_rule_witness :
  exists r, nth_error rows_bisseccao_sq2 0 = Some r /\
            f_sq2_Q (br_x r) = Some (br_fx r) /\
            bracket_row_converged (1 # 10)%Q r = false.
Proof.
  eexists. split; [reflexivity|].
  destruct (@bracket_rows_stop_rule Q Q_arith f_sq2_Q 0 2 (1 # 10) 5
              rows_bisseccao_sq2 (or_introl eq_refl) 0%nat _ eq_refl)%Q
    as (Hf & Hnot & _).
  split; [exact Hf|]. apply Hnot. vm_compute. lia.
Defined.

(** ** Records of the secant method and of Newton's method *)

Section OpenRows.
Context {F : Type} {A : Arith F}.
Local Open Scope py_scope.

Lemma secante_body_inv (f : expr) (tol : F) (k : Z) (s : secante_locals)
    (r : secante_row) (c : ctl secante_locals) :
  secante_body f tol k s = Ok (r, c) ->
  (s_fx s - s_f_prev s ==? zero) = false /\
  r = {| sr_iter := k; sr_x_km1 := s_x_prev s; sr_x_k := s_x s;
         sr_x_kp1 := s_x s - div (s_fx s * (s_x s - s_x_prev s))
                                 (s_fx s - s_f_prev s);
         sr_f_x_k := s_fx s;
         sr_erro := abs (s_x s - div (s_fx s * (s_x s - s_x_prev s))
                                     (s_fx s - s_f_prev s) - s_x s) |} /\
  ((exists t, c = Break t) <-> secante_row_converged tol r = true) /\
  (forall s', c = Continue s' ->
     exists f_new,
       f (sr_x_kp1 r) = Some f_new /\
       s' = {| s_x_prev := s_x s; s_x := sr_x_kp1 r;
               s_f_prev := s_fx s; s_fx := f_new |}).
Proof.
  unfold secante_body, py_div.
  destruct (s_fx s - s_f_prev s ==? zero) eqn:Hd; [discriminate|].
  cbn [bind]. cbv zeta. unfold secante_row_converged.
  match goal with
  | |- (if ?t then _ else _) = _ -> _ => destruct t eqn:Et
  end.
  - intros H; inversion H; subst r c. simpl. rewrite Et.
    repeat split; eauto. intros s' E. discriminate.
  - unfold safe_eval.
    match goal with
    | |- context [f ?z] => destruct (f z) as [y|] eqn:E
    end; cbn [bind]; [|discriminate].
    intros H; inversion H; subst r c. simpl. rewrite Et.
    repeat split; try discriminate.
    + intros [t Ht]. discriminate.
    + intros s' Es. inversion Es. eauto.
Qed.

(** The retained function values are the values of [f] at the retained
    estimates. *)
Lemma secante_locals_values (f : expr) (tol : F) (j : nat) :
  forall s0 s,
    f (s_x_prev s0) = Some (s_f_prev s0) -> f (s_x s0) = Some (s_fx s0) ->
    locals_after (secante_body f tol) j 1 s0 = Some s ->
    f (s_x_prev s) = Some (s_f_prev s) /\ f (s_x s) = Some (s_fx s).
Proof.
  intros s0 s H0 H1 Hl.
  apply (locals_after_invariant (secante_body f tol)
           (fun s => f (s_x_prev s) = Some (s_f_prev s) /\
                     f (s_x s) = Some (s_fx s))) with (j := j) (k := 1%Z)
           (s := s0); auto.
  intros k t r t' [Hp Hx] Hb. apply secante_body_inv in Hb.
  destruct Hb as (_ & _ & _ & Hc).
  destruct (Hc t' eq_refl) as (f_new & Hf & ->). simpl. auto.
Qed.

Lemma secante_loop (f : expr) (x0 x1 tol : F) (max_iter : Z)
    (rows : list secante_row) :
  secante f x0 x1 tol max_iter = Ok rows ->
  exists f_prev fx,
    f x0 = Some f_prev /\ f x1 = Some fx /\
    for_range (secante_body f tol) (Z.to_nat max_iter) 1
      (secante_start x0 x1 f_prev fx) = Ok rows.
Proof.
  unfold secante, safe_eval.
  destruct (f x0) as [y0|]; cbn [bind]; [|discriminate].
  destruct (f x1) as [y1|]; cbn [bind]; [|discriminate].
  intros H. exists y0, y1. auto.
Qed.
End OpenRows.

(** X4.  In a sequence returned by the secant method the first record
    holds the two initial guesses in "x_{k-1}" and "x_k", and each later
    record holds in them the "x_k" and "x_{k+1}" of the record before it:
    the pair of estimates rolls forward by one. *)
Theorem secante_rows_roll {F : Type} {A : Arith F}
    (f : expr) (x0 x1 tol : F) (max_iter : Z) (rows : list secante_row) :
  secante f x0 x1 tol max_iter = Ok rows ->
  (forall r, nth_error rows 0 = Some r ->
             sr_x_km1 r = x0 /\ sr_x_k r = x1) /\
  (forall i r r',
     nth_error rows i = Some r -> nth_error rows (S i) = Some r' ->
     sr_x_km1 r' = sr_x_k r /\ sr_x_k r' = sr_x_kp1 r).
Proof.
  intros H. apply secante_loop in H.
  destruct H as (f_prev & fx & _ & _ & H). split.
  - intros r H0.
    destruct (for_range_nth _ _ _ _ _ H H0) as (s & c & Hl & Hb & _).
    simpl in Hl. inversion Hl; subst s.
    apply secante_body_inv in Hb. destruct Hb as (_ & -> & _). auto.
  - intros i r r' Hi Hi'.
    destruct (for_range_consecutive _ _ _ _ _ H Hi Hi')
      as (s & s' & c' & _ & Hb & Hb').
    apply secante_body_inv in Hb. destruct Hb as (_ & Hr & _ & Hc).
    destruct (Hc s' eq_refl) as (f_new & _ & Hs').
    apply secante_body_inv in Hb'. destruct Hb' as (_ & -> & _).
    rewrite Hs'. simpl. rewrite Hr. auto.
Qed.

Lemma secante_rows_roll_witness :
  exists r, nth_error rows_secante_sq2 0 = Some r /\
            sr_x_km1 r = 1%Q /\ sr_x_k r = 2%Q.
Proof.
  eexists. split; [reflexivity|].
  apply (proj1 (@secante_rows_roll Q Q_arith f_sq2_Q 1 2 (1 # 100) 10
                  rows_secante_sq2 eq_refl))%Q.
  reflexivity.
Defined.

(** X5.  Every record of a sequence returned by the secant method is a
    secant step computed with true function values: "f(x_k)" is [f] at
    "x_k", the other value used is [f] at "x_{k-1}", the computed
    difference [f(x_k) - f(x_{k-1})] does not compare equal to zero (the
    test [denom == 0] was false; in binary64 that includes a NaN
    difference, as two equal infinities give), and
    "x_{k+1}" = x_k - f(x_k) (x_k - x_{k-1}) / (f(x_k) - f(x_{k-1})) with
    "erro" = |x_{k+1} - x_k|. *)
Theorem secante_rows_are_secant_steps {F : Type} {A : Arith F}
    (f : expr) (x0 x1 tol : F) (max_iter : Z) (rows : list secante_row) :
  secante f x0 x1 tol max_iter = Ok rows ->
  forall r, In r rows -> secante_step f r.
Proof.
  intros H r Hin. apply secante_loop in H.
  destruct H as (f_prev & fx & H0 & H1 & H).
  apply In_nth_error in Hin. destruct Hin as [i Hi].
  destruct (for_range_nth _ _ _ _ _ H Hi) as (s & c & Hl & Hb & _).
  apply secante_locals_values in Hl; [|exact H0|exact H1].
  destruct Hl as [Hp Hx].
  apply secante_body_inv in Hb. destruct Hb as (Hd & -> & _).
  exists (s_f_prev s). simpl. auto.
Qed.

Lemma secante_rows_are_secant_steps_witness :
  exists r, nth_error rows_secante_sq2 0 = Some r /\ secante_step f_sq2_Q r.
Proof.
  eexists. split; [reflexivity|].
  apply (@secante_rows_are_secant_steps Q Q_arith f_sq2_Q 1 2 (1 # 100) 10
           rows_secante_sq2 eq_refl)%Q.
  left. reflexivity.
Defined.

(** X6.  In a sequence returned by the secant method every record but the
    last fails the stopping test ([|f(x_k)| < tol] or [erro < tol]), and
    the last record passes it unless it is the [max_iter]-th. *)
Theorem secante_rows_stop_rule {F : Type} {A : Arith F}
    (f : expr) (x0 x1 tol : F) (max_iter : Z) (rows : list secante_row) :
  secante f x0 x1 tol max_iter = Ok rows ->
  forall i r,
    nth_error rows i = Some r ->
    ((S i < length rows)%nat -> secante_row_converged tol r = false) /\
    (S i = length rows ->
     secante_row_converged tol r = true \/
     Z.of_nat (length rows) = max_iter).
Proof.
  intros H i r Hi. apply secante_loop in H.
  destruct H as (f_prev & fx & _ & _ & H).
  destruct (for_range_last _ _ _ _ _ H Hi) as (s & c & _ & Hb & Hlt & Heq).
  apply secante_body_inv in Hb. destruct Hb as (_ & _ & Hconv & _). split.
  - intros Hl. destruct (Hlt Hl) as [s' ->].
    destruct (secante_row_converged tol r); [|reflexivity].
    destruct (proj2 Hconv eq_refl) as [t E]. discriminate.
  - intros Hl. destruct (Heq Hl) as [Hbr|Hn]; [left|right; lia].
    apply Hconv. exact Hbr.
Qed.

Lemma secante_rows_stop_rule_witness :
  exists r, nth_error rows_secante_sq2 0 = Some r /\
            secante_row_converged (1 # 100)%Q r = false.
Proof.
  eexists. split; [reflexivity|].
  apply (proj1 (@secante_rows_stop_rule Q Q_arith f_sq2_Q 1 2 (1 # 100) 10
                  rows_secante_sq2 eq_refl 0%nat _ eq_refl))%Q.
  vm_compute. lia.
Defined.

(** X7.  In a sequence returned by Newton's method the first record is the
    Newton step from [x0], and each later record is the Newton step from
    the "x" of the record before it: its "f(x)" and "f'(x)" are the values
    of [f] and [f'] there, "f'(x)" is not zero, its "x" is that point
    minus f/f', and its "erro" is the length of the step. *)
Theorem newton_rows_are_newton_steps {F : Type} {A : Arith F}
    (f df : expr) (x0 tol : F) (max_iter : Z) (rows : list newton_row) :
  newton f df x0 tol max_iter = Ok rows ->
  (forall r, nth_error rows 0 = Some r -> newton_step_from f df x0 r) /\
  (forall i r r',
     nth_error rows i = Some r -> nth_error rows (S i) = Some r' ->
     newton_step_from f df (nr_x r) r').
Proof.
  unfold newton. intros H. split.
  - intros r H0.
    destruct (for_range_nth _ _ _ _ _ H H0) as (s & c & Hl & Hb & _).
    simpl in Hl. inversion Hl; subst s.
    apply newton_body_ok in Hb.
    destruct Hb as (fx & dfx & Hf & Hd & Hz & -> & _).
    unfold newton_step_from. simpl. auto.
  - intros i r r' Hi Hi'.
    destruct (for_range_consecutive _ _ _ _ _ H Hi Hi')
      as (s & s' & c' & _ & Hb & Hb').
    apply newton_body_ok in Hb.
    destruct Hb as (fx & dfx & _ & _ & _ & Hr & Hc).
    assert (Es : s' = nr_x r).
    { rewrite Hr. simpl. destruct (_ || _); inversion Hc; reflexivity. }
    subst s'. apply newton_body_ok in Hb'.
    destruct Hb' as (fx' & dfx' & Hf & Hd & Hz & -> & _).
    unfold newton_step_from. simpl. auto.
Qed.

Lemma newton_rows_are_newton_steps_witness :
  exists r, nth_error rows_newton_sq2 0 = Some r /\
            newton_step_from f_sq2_Q df_sq2_Q 1%Q r.
Proof.
  eexists. split; [reflexivity|].
  apply (proj1 (@newton_rows_are_newton_steps Q Q_arith f_sq2_Q df_sq2_Q 1
                  (1 # 100) 6 rows_newton_sq2 eq_refl))%Q.
  reflexivity.
Defined.

(** ** Matching by derivatives decides the language of a pattern *)

Section RegexFacts.

Lemma lang_seq_inv (r1 r2 : regex) (s : text) :
  lang (Seq r1 r2) s ->
  exists s1 s2, s = s1 ++ s2 /\ lang r1 s1 /\ lang r2 s2.
Proof. intros H. inversion H; subst. eauto. Qed.

Lemma lang_alt_inv (r1 r2 : regex) (s : text) :
  lang (Alt r1 r2) s -> lang r1 s \/ lang r2 s.
Proof. intros H. inversion H; subst; auto. Qed.

Lemma lang_cls_inv (p : char -> bool) (s : text) :
  lang (Cls p) s -> exists c, s = [c] /\ p c = true.
Proof. intros H. inversion H; subst. eauto. Qed.

Lemma lang_eps_inv (s : text) : lang Eps s -> s = [].
Proof. intros H. inversion H; reflexivity. Qed.

Lemma nullable_lang (r : regex) : nullable r = true <-> lang r [].
Proof.
  induction r as [| |p|r1 IH1 r2 IH2|r1 IH1 r2 IH2|r IH]; simpl.
  - split; [discriminate | intros H; inversion H].
  - split; [constructor | reflexivity].
  - split; [discriminate | intros H; inversion H].
  - rewrite andb_true_iff, IH1, IH2. split.
    + intros [H1 H2]. exact (lang_seq H1 H2).
    + intros H. apply lang_seq_inv in H.
      destruct H as (s1 & s2 & E & H1 & H2).
      symmetry in E. apply app_eq_nil in E. destruct E; subst. auto.
  - rewrite orb_true_iff, IH1, IH2. split.
    + intros [H|H]; [apply lang_alt_l | apply lang_alt_r]; exact H.
    + apply lang_alt_inv.
  - split; [constructor | reflexivity].
Qed.

(** A non-empty text of [r*] starts with a non-empty text of [r]. *)
Lemma lang_star_cons_inv (r : regex) (c : char) (s : text) :
  lang (Star r) (c :: s) ->
  exists s1 s2, s = s1 ++ s2 /\ lang r (c :: s1) /\ lang (Star r) s2.
Proof.
  intros H. remember (Star r) as r' eqn:Er. remember (c :: s) as t eqn:Et.
  induction H as [| | | | | |r0 s1 s2 H1 _ H2 IH2]; try discriminate.
  inversion Er; subst r0. destruct s1 as [|c1 s1]; simpl in Et.
  - apply IH2; auto.
  - inversion Et; subst. eauto.
Qed.

Lemma deriv_lang (r : regex) : forall c s,
  lang (deriv c r) s <-> lang r (c :: s).
Proof.
  induction r as [| |p|r1 IH1 r2 IH2|r1 IH1 r2 IH2|r IH]; intros c s; simpl.
  - split; intros H; inversion H.
  - split; intros H; inversion H.
  - destruct (p c) eqn:Ep; split; intros H.
    + apply lang_eps_inv in H. subst. constructor. exact Ep.
    + apply lang_cls_inv in H. destruct H as (c' & E & _).
      inversion E; subst. constructor.
    + inversion H.
    + apply lang_cls_inv in H. destruct H as (c' & E & Hp).
      inversion E; subst. congruence.
  - assert (Hfirst : lang (Seq (deriv c r1) r2) s ->
                     lang (Seq r1 r2) (c :: s)).
    { intros H. apply lang_seq_inv in H.
      destruct H as (s1 & s2 & -> & H1 & H2).
      apply IH1 in H1. exact (lang_seq H1 H2). }
    assert (Hback : lang (Seq r1 r2) (c :: s) ->
                    lang (Seq (deriv c r1) r2) s \/
                    (lang r1 [] /\ lang r2 (c :: s))).
    { intros H. apply lang_seq_inv in H.
      destruct H as (s1 & s2 & E & H1 & H2).
      destruct s1 as [|c1 s1]; simpl in E.
      - subst s2. auto.
      - inversion E; subst. left. apply lang_seq; [apply IH1|]; assumption. }
    destruct (nullable r1) eqn:En; split.
    + intros H. apply lang_alt_inv in H. destruct H as [H|H]; [auto|].
      apply IH2 in H. apply nullable_lang in En.
      exact (lang_seq En H).
    + intros H. destruct (Hback H) as [H1|[_ H2]].
      * apply lang_alt_l; exact H1.
      * apply lang_alt_r. apply IH2. exact H2.
    + exact Hfirst.
    + intros H. destruct (Hback H) as [H1|[H1 _]]; [exact H1|].
      apply nullable_lang in H1. congruence.
  - split; intros H.
    + apply lang_alt_inv in H.
      destruct H as [H|H]; [apply lang_alt_l; apply IH1
                           |apply lang_alt_r; apply IH2]; exact H.
    + apply lang_alt_inv in H.
      destruct H as [H|H]; [apply lang_alt_l; apply IH1
                           |apply lang_alt_r; apply IH2]; exact H.
  - split; intros H.
    + apply lang_seq_inv in H. destruct H as (s1 & s2 & -> & H1 & H2).
      apply IH in H1. exact (lang_star_cons H1 H2).
    + apply lang_star_cons_inv in H. destruct H as (s1 & s2 & -> & H1 & H2).
      apply lang_seq; [apply IH|]; assumption.
Qed.

Lemma fullmatch_lang (s : text) : forall r,
  fullmatch r s = true <-> lang r s.
Proof.
  induction s as [|c s IH]; intros r; simpl.
  - apply nullable_lang.
  - rewrite IH. apply deriv_lang.
Qed.

Lemma lang_classes (P : char -> Prop) (r : regex) (s : text) :
  lang r s -> classes_within P r -> Forall P s.
Proof.
  intros H. induction H; simpl; intros Hc.
  - constructor.
  - constructor; [auto | constructor].
  - apply Forall_app. split; [apply IHlang1 | apply IHlang2]; tauto.
  - apply IHlang; tauto.
  - apply IHlang; tauto.
  - constructor.
  - apply Forall_app. split; [apply IHlang1 | apply IHlang2]; tauto.
Qed.

Lemma lang_plus_exists (p : char -> bool) (s : text) :
  lang (Plus (Cls p)) s -> Exists (fun c => p c = true) s.
Proof.
  intros H. apply lang_seq_inv in H. destruct H as (s1 & s2 & -> & H1 & _).
  apply lang_cls_inv in H1. destruct H1 as (c & -> & Hp).
  simpl. apply Exists_cons_hd. exact Hp.
Qed.
End RegexFacts.

(** ** Texts *)

Section TextFacts.
Variable p : char -> bool.

Lemma drop_while_idem (s : text) :
  drop_while p (drop_while p s) = drop_while p s.
Proof.
  induction s as [|c s IH]; simpl; [reflexivity|].
  destruct (p c) eqn:E; [exact IH|]. simpl. rewrite E. reflexivity.
Qed.

(** [drop_while] removes a prefix of characters satisfying [p]. *)
Lemma drop_while_split (s : text) :
  exists w, s = w ++ drop_while p s /\ Forall (fun c => p c = true) w.
Proof.
  induction s as [|c s (w & E & Hw)]; simpl.
  - exists []. auto.
  - destruct (p c) eqn:Ec.
    + exists (c :: w). simpl. rewrite <- E. auto.
    + exists []. auto.
Qed.

(** What is left does not start with a character satisfying [p]. *)
Lemma drop_while_head (s : text) (c : char) (t : text) :
  drop_while p s = c :: t -> p c = false.
Proof.
  induction s as [|x s IH]; simpl; [discriminate|].
  destruct (p x) eqn:E; [exact IH|]. intros H; inversion H; subst; exact E.
Qed.

Lemma drop_while_fixed (s : text) :
  match s with [] => True | c :: _ => p c = false end ->
  drop_while p s = s.
Proof. destruct s as [|c s]; simpl; [reflexivity|]. intros ->. reflexivity. Qed.
End TextFacts.

Section StripFacts.
Variable is_space : char -> bool.

Lemma rstrip_split (s : text) :
  exists w, s = rstrip is_space s ++ w /\
            Forall (fun c => is_space c = true) w.
Proof.
  unfold rstrip. destruct (drop_while_split is_space (rev s)) as (w & E & Hw).
  exists (rev w). split.
  - rewrite <- rev_app_distr, <- E, rev_involutive. reflexivity.
  - apply Forall_rev. exact Hw.
Qed.

Lemma rstrip_idem (s : text) :
  rstrip is_space (rstrip is_space s) = rstrip is_space s.
Proof.
  unfold rstrip. rewrite rev_involutive, drop_while_idem. reflexivity.
Qed.

(** Stripping on the right leaves the first character in place. *)
Lemma rstrip_head (s : text) :
  match s with [] => True | c :: _ => is_space c = false end ->
  match rstrip is_space s with
  | [] => True
  | c :: _ => is_space c = false
  end.
Proof.
  intros Hs. destruct (rstrip_split s) as (w & E & _).
  destruct (rstrip is_space s) as [|c t]; [exact I|].
  rewrite E in Hs. exact Hs.
Qed.

Lemma strip_idem (s : text) : strip is_space (strip is_space s) = strip is_space s.
Proof.
  unfold strip, lstrip.
  assert (H : drop_while is_space (rstrip is_space (drop_while is_space s))
              = rstrip is_space (drop_while is_space s)).
  { apply drop_while_fixed. apply rstrip_head.
    destruct (drop_while is_space s) as [|c t] eqn:E; [exact I|].
    eapply drop_while_head; eauto. }
  rewrite H. apply rstrip_idem.
Qed.

(** Stripping keeps only characters of the text. *)
Lemma strip_incl (s : text) (c : char) : In c (strip is_space s) -> In c s.
Proof.
  unfold strip, lstrip. intros H.
  destruct (rstrip_split (drop_while is_space s)) as (w & E & _).
  destruct (drop_while_split is_space s) as (w' & E' & _).
  rewrite E'. apply in_or_app. right. rewrite E. apply in_or_app. auto.
Qed.

Lemma contains_false (c : char) (s : text) :
  contains c s = false <-> ~ In c s.
Proof.
  unfold contains. split.
  - intros H Hin. assert (E : existsb (N.eqb c) s = true).
    { apply existsb_exists. exists c. split; [exact Hin | apply N.eqb_refl]. }
    congruence.
  - intros H. destruct (existsb (N.eqb c) s) eqn:E; [|reflexivity].
    apply existsb_exists in E. destruct E as (x & Hx & Ex).
    apply N.eqb_eq in Ex. subst. contradiction.
Qed.

(** What stands before the first [c] does not contain [c]. *)
Lemma split_first_before (c : char) (s : text) :
  ~ In c (fst (split_first c s)).
Proof.
  induction s as [|x s IH]; simpl; [auto|].
  destruct (N.eqb x c) eqn:E; simpl; [auto|].
  destruct (split_first c s) as [b a]. simpl in *.
  intros [H|H]; [|contradiction].
  subst. rewrite N.eqb_refl in E. discriminate.
Qed.

(** [s.split(c)] gives one piece more than there are [c] in [s]. *)
Lemma split_on_length (c : char) (s : text) :
  length (split_on c s) = S (count_occ N.eq_dec s c).
Proof.
  induction s as [|x s IH]; simpl; [reflexivity|].
  destruct (N.eqb_spec x c) as [E|E].
  - subst. destruct (N.eq_dec c c); [|contradiction]. simpl. rewrite IH.
    reflexivity.
  - destruct (N.eq_dec x c); [contradiction|].
    destruct (split_on c s) as [|piece pieces]; simpl in *; [discriminate|].
    exact IH.
Qed.
End StripFacts.

(** ** The configuration parser *)

Section ParserFacts.
Variable is_space : char -> bool.
Variable is_digit : char -> bool.
Variable F : Type.
Variable py_float : text -> option F.

#[local] Abbreviation number_pattern' := (number_pattern is_digit).
#[local] Abbreviation parse_value' := (parse_value is_space is_digit py_float).
#[local] Abbreviation parse_item' := (parse_item is_digit py_float).
#[local] Abbreviation parse_items' := (parse_items is_digit py_float).
#[local] Abbreviation parse_lines' := (parse_lines is_space is_digit py_float).
#[local] Abbreviation read_line' := (read_line is_space).
#[local] Abbreviation last_assignment' := (last_assignment is_space).
#[local] Abbreviation strip' := (strip is_space).

Lemma number_pattern_classes :
  classes_within (fun c => number_char is_digit c = true) number_pattern'.
Proof.
  unfold number_pattern, Opt, Plus, sign, digit, one, e_or_E,
    number_char.
  cbn [classes_within]. repeat split; try exact I; intros c H;
    cbv beta in H;
    repeat (apply orb_true_iff in H; destruct H as [H|H]);
    try (apply N.eqb_eq in H; subst c);
    try rewrite H; try rewrite N.eqb_refl;
    repeat rewrite orb_true_r; reflexivity.
Qed.

Lemma number_pattern_digit (s : text) :
  lang number_pattern' s -> Exists (fun c => is_digit c = true) s.
Proof.
  intros H. apply lang_seq_inv in H. destruct H as (s0 & s1 & -> & _ & H).
  apply lang_seq_inv in H. destruct H as (m & e & -> & H & _).
  apply Exists_app. right. apply Exists_app. left.
  apply lang_alt_inv in H. destruct H as [H|H];
    apply lang_seq_inv in H; destruct H as (u & v & -> & Hu & Hv);
    apply Exists_app.
  - left. apply (lang_plus_exists Hu).
  - right. apply (lang_plus_exists Hv).
Qed.

Lemma fullmatch_number (s : text) :
  fullmatch number_pattern' s = true ->
  Forall (fun c => number_char is_digit c = true) s /\
  Exists (fun c => is_digit c = true) s.
Proof.
  intros H. apply fullmatch_lang in H. split.
  - eapply lang_classes; [exact H | exact number_pattern_classes].
  - exact (number_pattern_digit H).
Qed.

Lemma parse_items_length (ps : list text) : forall l,
  parse_items' ps = Some l -> length l = length ps.
Proof.
  induction ps as [|p ps IH]; simpl; intros l H.
  - inversion H; reflexivity.
  - destruct (parse_item' p); [|discriminate].
    destruct (parse_items' ps) as [l'|]; [|discriminate].
    inversion H; subst. simpl. rewrite (IH l' eq_refl). reflexivity.
Qed.

(** What [parse_value'] can give. *)
Lemma parse_value_cases (v : text) (x : value F) :
  parse_value' v = Some x ->
  (exists y, x = VNum y /\ fullmatch number_pattern' v = true /\
             py_float v = Some y) \/
  (exists l, x = VList l /\
             starts_with (chr "[") v = true /\ ends_with (chr "]") v = true /\
             parse_items' (map strip' (split_on (chr ",") (strip' (middle v))))
               = Some l) \/
  x = VText v.
Proof.
  unfold parse_value.
  destruct (fullmatch number_pattern' v) eqn:Em.
  - destruct (py_float v) as [y|] eqn:Ef.
    + intros H; inversion H. left. eauto.
    + destruct (starts_with _ v) eqn:Es; destruct (ends_with _ v) eqn:Ee;
        simpl; try (intros H; inversion H; auto).
      destruct (parse_items' _) as [l|] eqn:El; simpl in *; [|discriminate].
      inversion H. right. left. eauto.
  - destruct (starts_with _ v) eqn:Es; destruct (ends_with _ v) eqn:Ee;
      simpl; try (intros H; inversion H; auto).
    destruct (parse_items' _) as [l|] eqn:El; simpl in *; [|discriminate].
    inversion H. right. left. eauto.
Qed.

Lemma read_line_none (line : text) :
  strip' line = [] \/ starts_with (chr "#") (strip' line) = true \/
  contains (chr "=") (strip' line) = false ->
  read_line' line = None.
Proof.
  unfold read_line. intros [H|[H|H]].
  - rewrite H. reflexivity.
  - destruct (strip' line); [reflexivity|]. rewrite H. reflexivity.
  - destruct (strip' line); [reflexivity|].
    destruct (starts_with _ _); [reflexivity|]. rewrite H. reflexivity.
Qed.

Lemma read_line_some (line k v : text) :
  read_line' line = Some (k, v) ->
  strip' k = k /\ contains (chr "=") k = false /\ strip' v = v.
Proof.
  unfold read_line. destruct (strip' line) as [|c l]; [discriminate|].
  destruct (starts_with _ _); [discriminate|].
  destruct (negb _); [discriminate|].
  pose proof (split_first_before (chr "=") (c :: l)) as Hb.
  destruct (split_first (chr "=") (c :: l)) as [b a]. simpl in Hb.
  intros H; inversion H; subst. repeat split; try apply strip_idem.
  apply contains_false. intros Hin. apply Hb.
  eapply strip_incl; eauto.
Qed.

Lemma parse_lines_app (l1 : list text) : forall params l2,
  parse_lines' params (l1 ++ l2) =
  match parse_lines' params l1 with
  | Some d => parse_lines' d l2
  | None => None
  end.
Proof.
  induction l1 as [|line l1 IH]; intros params l2; simpl; [reflexivity|].
  destruct (read_line' line) as [[k v]|]; [|apply IH].
  destruct (parse_value' v); [apply IH | reflexivity].
Qed.

Lemma dict_get_set_same (k : text) (v : value F) (d : dict F) :
  dict_get k (dict_set k v d) = Some v.
Proof.
  induction d as [|[k' v'] d IH]; simpl.
  - destruct (text_eq_dec k k); [reflexivity | contradiction].
  - destruct (text_eq_dec k k') as [E|E]; simpl.
    + destruct (text_eq_dec k k'); [reflexivity | contradiction].
    + destruct (text_eq_dec k k'); [contradiction | exact IH].
Qed.

Lemma dict_get_set_other (k k' : text) (v : value F) (d : dict F) :
  k <> k' -> dict_get k (dict_set k' v d) = dict_get k d.
Proof.
  intros Hne. induction d as [|[k0 v0] d IH]; simpl.
  - destruct (text_eq_dec k k'); [contradiction | reflexivity].
  - destruct (text_eq_dec k' k0) as [E|E]; simpl.
    + subst k0. destruct (text_eq_dec k k'); [contradiction | reflexivity].
    + destruct (text_eq_dec k k0); [reflexivity | exact IH].
Qed.

Lemma dict_set_keys (k : text) (v : value F) (d : dict F) :
  NoDup (map fst d) -> NoDup (map fst (dict_set k v d)) /\
  forall k0, In k0 (map fst (dict_set k v d)) <-> k0 = k \/ In k0 (map fst d).
Proof.
  induction d as [|[k' v'] d IH]; simpl; intros Hnd.
  - split; [constructor; [auto | constructor]|]. intros k0. intuition.
  - inversion Hnd as [|? ? Hnotin Hnd']; subst.
    destruct (IH Hnd') as [IH1 IH2].
    destruct (text_eq_dec k k') as [E|E]; simpl.
    + subst k'. split; [exact Hnd|]. intros k0. intuition.
    + split.
      * constructor; [|exact IH1]. intros Hin. apply IH2 in Hin.
        destruct Hin as [Hin|Hin]; [congruence | contradiction].
      * intros k0. rewrite IH2. intuition.
Qed.

(** Lookup after parsing: the last assignment to the key decides. *)
Lemma parse_lines_get (k : text) (lines : list text) : forall params d,
  parse_lines' params lines = Some d ->
  dict_get k d =
  match last_assignment' k lines with
  | Some v => parse_value' v
  | None => dict_get k params
  end.
Proof.
  induction lines as [|line rest IH]; intros params d H; simpl in *.
  - inversion H; reflexivity.
  - destruct (read_line' line) as [[k' v]|] eqn:Er.
    + destruct (parse_value' v) as [x|] eqn:Ev; [|discriminate].
      rewrite (IH _ _ H).
      destruct (last_assignment' k rest); [reflexivity|].
      destruct (text_eq_dec k k') as [E|E].
      * subst k'. rewrite dict_get_set_same. symmetry. exact Ev.
      * apply dict_get_set_other. exact E.
    + rewrite (IH _ _ H).
      destruct (last_assignment' k rest); reflexivity.
Qed.

Lemma parse_value_shape (v : text) (x : value F) :
  strip' v = v -> parse_value' v = Some x -> value_shape is_space x.
Proof.
  intros Hv H. apply parse_value_cases in H.
  destruct H as [(y & -> & _)|[(l & -> & _ & _ & Hl)| ->]]; simpl; auto.
  apply parse_items_length in Hl. rewrite length_map in Hl.
  rewrite split_on_length in Hl. intros ->. discriminate.
Qed.

Lemma parse_lines_shape (lines : list text) : forall params d,
  NoDup (map fst params) ->
  (forall k x, In (k, x) params ->
     strip' k = k /\ contains (chr "=") k = false /\ value_shape is_space x) ->
  parse_lines' params lines = Some d ->
  NoDup (map fst d) /\
  forall k x, In (k, x) d ->
    strip' k = k /\ contains (chr "=") k = false /\ value_shape is_space x.
Proof.
  induction lines as [|line rest IH]; intros params d Hnd Hp H; simpl in H.
  - inversion H; subst. auto.
  - destruct (read_line' line) as [[k v]|] eqn:Er; [|eapply IH; eauto].
    destruct (parse_value' v) as [x|] eqn:Ev; [|discriminate].
    destruct (read_line_some _ Er) as (Hk1 & Hk2 & Hv).
    pose proof (parse_value_shape Hv Ev) as Hx.
    eapply IH; [| |exact H].
    + apply dict_set_keys. exact Hnd.
    + clear - Hp Hk1 Hk2 Hx.
      induction params as [|[k0 x0] params IHp]; simpl.
      * intros k' x' [E|[]]. inversion E; subst. auto.
      * destruct (text_eq_dec k k0) as [E|E]; simpl.
        -- subst k0. intros k' x' [E'|Hin].
           ++ inversion E'; subst. auto.
           ++ apply Hp. right. exact Hin.
        -- intros k' x' [E'|Hin].
           ++ apply Hp. left. exact E'.
           ++ apply IHp; [|exact Hin]. intros k1 x1 H1. apply Hp.
              right. exact H1.
Qed.
End ParserFacts.

(** X13.  The parser stores a number for a value (or for an element of a
    bracketed value) only when [float] accepts the text and the text is
    written with digits, signs, [.], [e] and [E] alone and has at least one
    digit: the text of an expression in [x] is never turned into a
    number. *)
Theorem numbers_need_number_chars (is_space is_digit : char -> bool)
    (F : Type) (py_float : text -> option F) :
  (forall v x,
     parse_value is_space is_digit py_float v = Some (VNum x) ->
     py_float v = Some x /\
     Forall (fun c => number_char is_digit c = true) v /\
     Exists (fun c => is_digit c = true) v) /\
  (forall p x,
     parse_item is_digit py_float p = Some (INum x) ->
     py_float p = Some x /\
     Forall (fun c => number_char is_digit c = true) p /\
     Exists (fun c => is_digit c = true) p).
Proof.
  split.
  - intros v x H. apply parse_value_cases in H.
    destruct H as [(y & E & Hm & Hf)|[(l & E & _)|E]]; try discriminate.
    inversion E; subst y. split; [exact Hf|]. apply fullmatch_number; exact Hm.
  - intros p x. unfold parse_item.
    destruct (fullmatch (number_pattern is_digit) p) eqn:Hm; [|discriminate].
    destruct (py_float p) as [y|] eqn:Hf; simpl; [|discriminate].
    intros H; inversion H; subst y. split; [reflexivity|].
    apply fullmatch_number; exact Hm.
Qed.

Lemma numbers_need_number_chars_witness :
  Forall (fun c => number_char ascii_digit c = true) (text_of "12") /\
  Exists (fun c => ascii_digit c = true) (text_of "12").
Proof.
  destruct (proj1 (numbers_need_number_chars ascii_space ascii_digit
                     (nat_float 0)) (text_of "12") _ eq_refl) as [_ H].
  exact H.
Defined.

(** X14.  A line that is blank, or whose first character after stripping
    is [#], or that holds no [=], takes no part in the result: removing it
    from the file changes nothing. *)
Theorem parse_skips_ignored_lines (is_space is_digit : char -> bool)
    (F : Type) (py_float : text -> option F)
    (before after : list text) (line : text) :
  strip is_space line = [] \/
  starts_with (chr "#") (strip is_space line) = true \/
  contains (chr "=") (strip is_space line) = false ->
  parse_input_txt is_space is_digit py_float (before ++ line :: after) =
  parse_input_txt is_space is_digit py_float (before ++ after).
Proof.
  intros H. unfold parse_input_txt. rewrite !parse_lines_app.
  destruct (parse_lines is_space is_digit py_float [] before); [|reflexivity].
  simpl. rewrite (@read_line_none is_space line H). reflexivity.
Qed.

Lemma parse_skips_ignored_lines_witness :
  parse_input_txt ascii_space ascii_digit (nat_float 0)
    ([text_of "tol = 12"] ++ text_of "   # tol = 13" :: [text_of "a=1"]) =
  parse_input_txt ascii_space ascii_digit (nat_float 0)
    ([text_of "tol = 12"] ++ [text_of "a=1"]).
Proof.
  apply parse_skips_ignored_lines. right. left. reflexivity.
Defined.

(** X15.  When the parser returns, looking a key up in its result gives
    the value parsed from the last line that assigns to that key, and
    nothing for a key no line assigns to: a later assignment overrides an
    earlier one. *)
Theorem parse_last_assignment_wins (is_space is_digit : char -> bool)
    (F : Type) (py_float : text -> option F)
    (lines : list text) (d : dict F) :
  parse_input_txt is_space is_digit py_float lines = Some d ->
  forall k,
    dict_get k d =
    match last_assignment is_space k lines with
    | Some v => parse_value is_space is_digit py_float v
    | None => None
    end.
Proof.
  intros H k. unfold parse_input_txt in H.
  rewrite (@parse_lines_get is_space is_digit F py_float k lines [] d H).
  destruct (last_assignment is_space k lines); reflexivity.
Qed.

Lemma parse_last_assignment_wins_witness :
  dict_get (text_of "tol") sample_params = Some (VNum 7%Q) /\
  dict_get (text_of "x0") sample_params = None.
Proof.
  split.
  - rewrite (@parse_last_assignment_wins ascii_space ascii_digit Q
               (nat_float 0) sample_config sample_params eq_refl).
    vm_compute. reflexivity.
  - rewrite (@parse_last_assignment_wins ascii_space ascii_digit Q
               (nat_float 0) sample_config sample_params eq_refl).
    vm_compute. reflexivity.
Defined.

(** X16.  In the result of the parser no key occurs twice, every key is
    free of surrounding white space and of [=], every text value is free
    of surrounding white space, and no list value is empty. *)
Theorem parsed_dict_shape (is_space is_digit : char -> bool)
    (F : Type) (py_float : text -> option F)
    (lines : list text) (d : dict F) :
  parse_input_txt is_space is_digit py_float lines = Some d ->
  NoDup (map fst d) /\
  forall k x, In (k, x) d ->
    strip is_space k = k /\ contains (chr "=") k = false /\
    value_shape is_space x.
Proof.
  intros H. unfold parse_input_txt in H.
  eapply parse_lines_shape; [| |exact H].
  - constructor.
  - intros k x [].
Qed.

Lemma parsed_dict_shape_witness :
  NoDup (map fst sample_params).
Proof.
  apply (@parsed_dict_shape ascii_space ascii_digit Q (nat_float 0)
           sample_config sample_params eq_refl).
Defined.

(** X17.  A value is stored as a list only when it starts with [[] and
    ends with []], and the list then has one item more than there are
    commas in the stripped text between the brackets: the value [[]]
    gives the one-item list holding the empty text. *)
Theorem bracketed_value_item_count (is_space is_digit : char -> bool)
    (F : Type) (py_float : text -> option F) (v : text) (l : list (item F)) :
  parse_value is_space is_digit py_float v = Some (VList l) ->
  starts_with (chr "[") v = true /\ ends_with (chr "]") v = true /\
  length l =
    S (count_occ N.eq_dec (strip is_space (middle v)) (chr ",")).
Proof.
  intros H. apply parse_value_cases in H.
  destruct H as [(y & E & _)|[(l' & E & Hs & He & Hl)|E]]; try discriminate.
  inversion E; subst l'. repeat split; auto.
  apply parse_items_length in Hl.
  rewrite length_map, split_on_length in Hl. exact Hl.
Qed.

Lemma bracketed_value_item_count_witness :
  starts_with (chr "[") (text_of "[]") = true /\
  ends_with (chr "]") (text_of "[]") = true /\
  length [@IText Q []] =
    S (count_occ N.eq_dec (strip ascii_space (middle (text_of "[]")))
         (chr ",")).
Proof.
  apply (@bracketed_value_item_count ascii_space ascii_digit Q (nat_float 0)
           (text_of "[]") [IText []]).
  reflexivity.
Defined.

(** ** The caret of [safe_eval] *)

Lemma caret_to_power_no_caret (e : text) :
  contains (chr "^") (caret_to_power e) = false.
Proof.
  apply contains_false. unfold caret_to_power. intros H.
  apply in_flat_map in H. destruct H as (c & _ & Hc).
  destruct (N.eqb_spec c (chr "^")) as [E|E].
  - destruct Hc as [Hc|[Hc|[]]]; discriminate.
  - destruct Hc as [Hc|[]]. congruence.
Qed.

Lemma caret_to_power_fixed (e : text) :
  contains (chr "^") e = false -> caret_to_power e = e.
Proof.
  rewrite contains_false. unfold caret_to_power.
  induction e as [|c e IH]; intros H; [reflexivity|].
  cbn [flat_map]. destruct (N.eqb_spec c (chr "^")) as [E|E].
  - exfalso. apply H. left. exact E.
  - cbn [app]. f_equal. apply IH. intros Hin. apply H. right. exact Hin.
Qed.

(** X18.  The text that [safe_eval] hands to [eval] never contains [^]
    (so [^] can never act as Python's exclusive or), a text without [^] is
    handed over unchanged, and writing [**] in place of every [^] gives the
    same evaluation. *)
Theorem caret_never_reaches_eval {F : Type}
    (py_eval : text -> F -> option F) (e : text) (x : F) :
  contains (chr "^") (caret_to_power e) = false /\
  (contains (chr "^") e = false -> caret_to_power e = e) /\
  safe_eval_text py_eval (caret_to_power e) x = safe_eval_text py_eval e x.
Proof.
  split; [apply caret_to_power_no_caret|].
  split; [apply caret_to_power_fixed|].
  unfold safe_eval_text.
  rewrite (@caret_to_power_fixed (caret_to_power e)
             (caret_to_power_no_caret e)). reflexivity.
Qed.

(** ** The report table *)

Section TableFacts.
Variable F : Type.
Variable g10_float : F -> text.
Variable g10_int : Z -> option text.
Variable str_int : Z -> text.

#[local] Abbreviation cell_width' := (cell_width g10_float g10_int).
#[local] Abbreviation cell_text' := (cell_text g10_float str_int).
#[local] Abbreviation column_width' := (column_width g10_float g10_int).
#[local] Abbreviation column_widths' := (column_widths g10_float g10_int).
#[local] Abbreviation padded_cell' := (padded_cell g10_float str_int).

Lemma spaces_length (n : nat) : length (spaces n) = n.
Proof. apply repeat_length. Qed.

Lemma ljust_length (w : nat) (s : text) :
  (length s <= w)%nat -> length (ljust w s) = w.
Proof.
  intros H. unfold ljust. rewrite length_app, spaces_length. lia.
Qed.

Lemma rjust_length (w : nat) (s : text) :
  (length s <= w)%nat -> length (rjust w s) = w.
Proof.
  intros H. unfold rjust. rewrite length_app, spaces_length. lia.
Qed.

(** The length of a joined line whose parts have the lengths [ws]. *)
Lemma join_length (sep : text) (parts : list text) :
  length (join sep parts) =
  (list_sum (map (@length char) parts) + length sep * (length parts - 1))%nat.
Proof.
  induction parts as [|p [|q parts] IH].
  - simpl. lia.
  - simpl. lia.
  - change (join sep (p :: q :: parts)) with (p ++ sep ++ join sep (q :: parts)).
    rewrite !length_app, IH. simpl. lia.
Qed.

Lemma join_length_columns (A : Type) (sep : text) (f : A -> text)
    (w : A -> nat) (l : list A) :
  (forall a, In a l -> length (f a) = w a) ->
  length (join sep (map f l)) =
  (list_sum (map w l) + length sep * (length l - 1))%nat.
Proof.
  intros H. rewrite join_length, map_map, length_map.
  f_equal. f_equal. apply map_ext_in. exact H.
Qed.

Lemma column_width_header (h : text) (rows : list (record F)) (m : nat) :
  column_width' h rows = Some m -> (length h <= m)%nat.
Proof.
  revert m. induction rows as [|r rows IH]; simpl; intros m H.
  - inversion H; lia.
  - destruct (cell_width' (cell_get h r)); [|discriminate].
    destruct (column_width' h rows) as [m'|]; [|discriminate].
    inversion H. specialize (IH m' eq_refl). lia.
Qed.

Lemma column_width_cell (h : text) (rows : list (record F)) (m : nat)
    (r : record F) :
  column_width' h rows = Some m -> In r rows ->
  exists w, cell_width' (cell_get h r) = Some w /\ (w <= m)%nat.
Proof.
  revert m. induction rows as [|r0 rows IH]; simpl; intros m H Hin;
    [contradiction|].
  destruct (cell_width' (cell_get h r0)) as [w0|] eqn:E0; [|discriminate].
  destruct (column_width' h rows) as [m'|]; [|discriminate].
  inversion H. destruct Hin as [->|Hin].
  - exists w0. split; [exact E0 | lia].
  - destruct (IH m' eq_refl Hin) as (w & Hw & Hle). exists w. split; [auto|lia].
Qed.

Lemma column_widths_combine (headers : list text) (rows : list (record F)) :
  forall ws, column_widths' headers rows = Some ws ->
  length ws = length headers /\
  forall hw, In hw (combine headers ws) ->
    In (fst hw) headers /\ column_width' (fst hw) rows = Some (snd hw).
Proof.
  induction headers as [|h hs IH]; simpl; intros ws H.
  - inversion H. simpl. split; [reflexivity | contradiction].
  - destruct (column_width' h rows) as [w|] eqn:Ew; [|discriminate].
    destruct (column_widths' hs rows) as [ws'|]; [|discriminate].
    inversion H; subst ws. destruct (IH ws' eq_refl) as [Hlen Hin].
    simpl. split; [lia|]. intros hw [<-|Hhw]; simpl; [auto|].
    destruct (Hin hw Hhw). auto.
Qed.
End TableFacts.

(** X19.  When [format_table] builds its lines, all of them (the header
    line, the rule and one line per record) have the same length, provided
    that no [int] shown in a column is longer written by [str] than in the
    [.10g] form that sized the column. *)
Theorem table_lines_aligned (F : Type) (g10_float : F -> text)
    (g10_int : Z -> option text) (str_int : Z -> text)
    (rows : list (record F)) (headers lines : list text) :
  table_lines g10_float g10_int str_int rows headers = Some lines ->
  (forall r h i t,
     In r rows -> In h headers -> cell_get h r = CInt i ->
     g10_int i = Some t -> (length (str_int i) <= length t)%nat) ->
  exists n, Forall (fun l => length l = n) lines.
Proof.
  unfold table_lines. intros H Hint.
  destruct (column_widths g10_float g10_int headers rows) as [ws|] eqn:Ews;
    [|discriminate].
  destruct (column_widths_combine _ _ _ _ Ews) as [_ Hcols].
  inversion H; subst lines. clear H.
  exists (list_sum (map snd (combine headers ws))
          + 3 * (length (combine headers ws) - 1))%nat.
  constructor; [|constructor].
  - apply (join_length_columns (text_of " | ")
             (fun hw => ljust (snd hw) (fst hw)) snd).
    intros hw Hhw. destruct (Hcols hw Hhw) as [_ Hw].
    apply ljust_length. eapply column_width_header; eauto.
  - apply (join_length_columns (text_of "-+-")
             (fun hw => repeat (chr "-") (snd hw)) snd).
    intros hw _. apply repeat_length.
  - apply Forall_forall. intros l Hl. apply in_map_iff in Hl.
    destruct Hl as (r & <- & Hr).
    apply (join_length_columns (text_of " | ")
             (padded_cell g10_float str_int r) snd).
    intros hw Hhw. destruct (Hcols hw Hhw) as [Hh Hw].
    edestruct column_width_cell as (w & Hcw & Hle); [exact Hw | exact Hr |].
    unfold padded_cell.
    destruct (cell_get (fst hw) r) as [i|x|s] eqn:Ec; simpl in *.
    + destruct (g10_int i) as [t|] eqn:Et; simpl in Hcw; [|discriminate].
      inversion Hcw; subst w. apply rjust_length.
      pose proof (Hint r (fst hw) i t Hr Hh Ec Et). lia.
    + inversion Hcw; subst w. apply rjust_length. exact Hle.
    + inversion Hcw; subst w. apply ljust_length. exact Hle.
Qed.

Lemma table_lines_aligned_witness :
  exists n, Forall (fun l => length l = n) sample_table_lines.
Proof.
  apply (@table_lines_aligned Q show_Q (fun i => Some (show_int i)) show_int
           sample_records (table_headers sample_records) sample_table_lines).
  - vm_compute. reflexivity.
  - intros r h i t _ _ _ Ht. inversion Ht. lia.
Defined.

(** ** Facts about the columns of the reports *)

Section SortFacts.
Variable leb : text -> text -> bool.

Lemma insert_sorted_perm (x : text) (l : list text) :
  Permutation (insert_sorted leb x l) (x :: l).
Proof.
  induction l as [|y l IH]; simpl; [reflexivity|].
  destruct (leb x y); [reflexivity|].
  rewrite IH. apply perm_swap.
Qed.

Lemma py_sorted_perm (l : list text) : Permutation (py_sorted leb l) l.
Proof.
  induction l as [|x l IH]; simpl; [reflexivity|].
  rewrite insert_sorted_perm. constructor. exact IH.
Qed.

Hypothesis leb_total : forall a b, leb a b = true \/ leb b a = true.
Hypothesis leb_trans :
  forall a b c, leb a b = true -> leb b c = true -> leb a c = true.

Lemma insert_sorted_sorted (x : text) (l : list text) :
  StronglySorted (fun a b => leb a b = true) l ->
  StronglySorted (fun a b => leb a b = true) (insert_sorted leb x l).
Proof.
  induction 1 as [|y l Hs IH Hy]; simpl.
  - constructor; constructor.
  - destruct (leb x y) eqn:E.
    + constructor; [constructor; assumption|].
      constructor; [exact E|].
      eapply Forall_impl; [|exact Hy]. intros z Hz. eauto.
    + constructor; [exact IH|].
      eapply Permutation_Forall;
        [symmetry; apply insert_sorted_perm|].
      constructor; [|exact Hy].
      destruct (leb_total x y) as [H|H]; congruence.
Qed.

Lemma py_sorted_sorted (l : list text) :
  StronglySorted (fun a b => leb a b = true) (py_sorted leb l).
Proof.
  induction l as [|x l IH]; simpl; [constructor|].
  apply insert_sorted_sorted. exact IH.
Qed.
End SortFacts.

(** The head of a sorted list is the element that no other one precedes. *)
Lemma sorted_head_least (leb : text -> text -> bool) (h x : text)
    (t : list text) :
  StronglySorted (fun a b => leb a b = true) (h :: t) ->
  In x (h :: t) ->
  (forall y, In y (h :: t) -> y <> x -> leb y x = false) ->
  h = x.
Proof.
  intros Hs Hx Hleast. destruct (text_eq_dec h x) as [E|E]; [exact E|].
  destruct Hx as [Hx|Hx]; [contradiction|].
  apply StronglySorted_inv in Hs. destruct Hs as [_ Hall].
  rewrite Forall_forall in Hall. specialize (Hall x Hx).
  rewrite (Hleast h (or_introl eq_refl) E) in Hall. discriminate.
Qed.

Lemma sorted_members (R R' : text -> text -> Prop) (l : list text) :
  (forall a b, In a l -> In b l -> R a b -> R' a b) ->
  StronglySorted R l -> StronglySorted R' l.
Proof.
  intros Himp Hs. induction Hs as [|a l Hs IH Ha]; constructor.
  - apply IH. intros x y Hx Hy. apply Himp; right; assumption.
  - rewrite Forall_forall in *. intros y Hy.
    apply Himp; [left; reflexivity | right; exact Hy | apply Ha, Hy].
Qed.

Lemma text_leb_total (s t : text) :
  text_leb s t = true \/ text_leb t s = true.
Proof.
  revert t. induction s as [|a s IH]; intros [|b t]; simpl; auto.
  destruct (N.ltb_spec a b); auto.
  destruct (N.ltb_spec b a); auto.
  assert (a = b) by lia. subst b. rewrite N.eqb_refl. apply IH.
Qed.

Lemma text_leb_trans (s t u : text) :
  text_leb s t = true -> text_leb t u = true -> text_leb s u = true.
Proof.
  revert t u. induction s as [|a s IH]; intros [|b t] [|c u]; simpl; auto;
    try discriminate.
  destruct (N.ltb_spec a b) as [Hab|Hab].
  - intros _. destruct (N.ltb_spec b c) as [Hbc|Hbc].
    + intros _. destruct (N.ltb_spec a c); [reflexivity | lia].
    + destruct (N.eqb_spec b c) as [->|]; [|discriminate].
      intros _. destruct (N.ltb_spec a c); [reflexivity | lia].
  - destruct (N.eqb_spec a b) as [->|]; [|discriminate].
    intros Hst. destruct (N.ltb_spec b c); [reflexivity|].
    destruct (N.eqb_spec b c) as [->|]; [|discriminate].
    apply IH. exact Hst.
Qed.

Lemma pinned_leb_total (pinned : text -> bool) (a b : text) :
  pinned_leb pinned a b = true \/ pinned_leb pinned b a = true.
Proof.
  unfold pinned_leb. destruct (pinned a), (pinned b); auto;
    apply text_leb_total.
Qed.

Lemma pinned_leb_trans (pinned : text -> bool) (a b c : text) :
  pinned_leb pinned a b = true -> pinned_leb pinned b c = true ->
  pinned_leb pinned a c = true.
Proof.
  unfold pinned_leb. destruct (pinned a), (pinned b), (pinned c);
    try discriminate; auto; apply text_leb_trans.
Qed.

Lemma is_text_true (name : string) (x : text) :
  is_text name x = true <-> x = text_of name.
Proof.
  unfold is_text. destruct (text_eq_dec x (text_of name)); split;
    auto; discriminate.
Qed.

Lemma is_text_false (name : string) (x : text) :
  is_text name x = false <-> x <> text_of name.
Proof.
  unfold is_text. destruct (text_eq_dec x (text_of name)); split;
    auto; try discriminate. contradiction.
Qed.

Lemma keys_of_in (F : Type) (rows : list (record F)) (h : text) :
  In h (keys_of rows) <-> exists r, In r rows /\ In h (map fst r).
Proof.
  unfold keys_of. rewrite nodup_In, in_flat_map. reflexivity.
Qed.

(** X20.  The headers that [write_txt_and_csv] gives to a method's table
    are the keys of its rows, each once; when some row has the key
    ["iter"], that column comes first and the others follow it in
    ascending order of their names. *)
Theorem table_headers_iter_first (F : Type) (rows : list (record F)) :
  (exists r, In r rows /\ In (text_of "iter") (map fst r)) ->
  exists rest,
    table_headers rows = text_of "iter" :: rest /\
    NoDup (text_of "iter" :: rest) /\
    (forall h, In h (text_of "iter" :: rest) <->
               exists r, In r rows /\ In h (map fst r)) /\
    StronglySorted (fun a b => text_leb a b = true) rest.
Proof.
  intros Hiter. apply keys_of_in in Hiter.
  pose proof (py_sorted_perm (pinned_leb (is_text "iter")) (keys_of rows))
    as Hperm.
  pose proof (@py_sorted_sorted _ (pinned_leb_total (is_text "iter"))
                (@pinned_leb_trans (is_text "iter")) (keys_of rows)) as Hs.
  fold (table_headers rows) in Hperm, Hs.
  assert (Hnd : NoDup (table_headers rows)).
  { eapply Permutation_NoDup; [symmetry; exact Hperm|].
    apply NoDup_nodup. }
  assert (Hin : In (text_of "iter") (table_headers rows)).
  { eapply Permutation_in; [symmetry; exact Hperm | exact Hiter]. }
  destruct (table_headers rows) as [|h rest] eqn:E; [contradiction|].
  assert (h = text_of "iter") as ->.
  { apply (@sorted_head_least _ _ _ _ Hs Hin). intros y _ Hy.
    unfold pinned_leb. apply is_text_false in Hy. rewrite Hy.
    rewrite (proj2 (is_text_true "iter" _) eq_refl). reflexivity. }
  exists rest. split; [reflexivity|]. split; [exact Hnd|]. split.
  - intros k. rewrite <- keys_of_in. split; apply Permutation_in;
      [exact Hperm | symmetry; exact Hperm].
  - apply StronglySorted_inv in Hs. destruct Hs as [Hs _].
    apply NoDup_cons_iff in Hnd. destruct Hnd as [Hnot _].
    revert Hs. apply sorted_members. intros a b Ha Hb.
    unfold pinned_leb.
    assert (Hpa : is_text "iter" a = false).
    { apply is_text_false. intros ->. contradiction. }
    assert (Hpb : is_text "iter" b = false).
    { apply is_text_false. intros ->. contradiction. }
    rewrite Hpa, Hpb. auto.
Qed.

Lemma table_headers_iter_first_witness :
  exists rest,
    table_headers sample_records = text_of "iter" :: rest /\
    NoDup (text_of "iter" :: rest) /\
    (forall h, In h (text_of "iter" :: rest) <->
               exists r, In r sample_records /\ In h (map fst r)) /\
    StronglySorted (fun a b => text_leb a b = true) rest.
Proof.
  apply (@table_headers_iter_first Q sample_records).
  eexists. split; [left; reflexivity | left; reflexivity].
Defined.

(** X21.  The field names of the CSV file always contain ["method"], each
    name once.  When some row has the key ["iter"] the file's columns
    start with ["iter"], then ["method"]; otherwise they start with
    ["method"]. *)
Theorem csv_fieldnames_start (F : Type) (all_rows : list (record F)) :
  NoDup (csv_fieldnames all_rows) /\
  ((exists r, In r all_rows /\ In (text_of "iter") (map fst r)) ->
   exists rest,
     csv_fieldnames all_rows = text_of "iter" :: text_of "method" :: rest) /\
  (~ (exists r, In r all_rows /\ In (text_of "iter") (map fst r)) ->
   exists rest, csv_fieldnames all_rows = text_of "method" :: rest).
Proof.
  set (pinned := fun x => is_text "method" x || is_text "iter" x).
  set (keys := nodup text_eq_dec
                 (flat_map (map fst) all_rows ++ [text_of "method"])).
  pose proof (py_sorted_perm (pinned_leb pinned) keys) as Hperm.
  pose proof (@py_sorted_sorted _ (pinned_leb_total pinned)
                (@pinned_leb_trans pinned) keys) as Hs.
  change (py_sorted (pinned_leb pinned) keys)
    with (csv_fieldnames all_rows) in Hperm, Hs.
  assert (Hnd : NoDup (csv_fieldnames all_rows)).
  { eapply Permutation_NoDup; [symmetry; exact Hperm|].
    apply NoDup_nodup. }
  assert (Hmem : forall h, In h (csv_fieldnames all_rows) <->
            (exists r, In r all_rows /\ In h (map fst r)) \/
            h = text_of "method").
  { intros h. split.
    - intros H. apply (Permutation_in _ Hperm) in H.
      unfold keys in H. rewrite nodup_In, in_app_iff, in_flat_map in H.
      destruct H as [H|[H|[]]]; auto.
    - intros H. apply (Permutation_in _ (Permutation_sym Hperm)).
      unfold keys. rewrite nodup_In, in_app_iff, in_flat_map.
      destruct H as [H|H]; [left; exact H | right; left; auto]. }
  assert (Hpm : pinned (text_of "method") = true) by reflexivity.
  assert (Hpi : pinned (text_of "iter") = true) by reflexivity.
  assert (Hpo : forall y, y <> text_of "iter" -> y <> text_of "method" ->
                          pinned y = false).
  { intros y Hi Hm. unfold pinned.
    rewrite (proj2 (is_text_false "iter" y) Hi),
            (proj2 (is_text_false "method" y) Hm). reflexivity. }
  split; [exact Hnd|]. split.
  - intros Hiter.
    assert (Hin : In (text_of "iter") (csv_fieldnames all_rows))
      by (apply Hmem; left; exact Hiter).
    assert (Him : In (text_of "method") (csv_fieldnames all_rows))
      by (apply Hmem; right; reflexivity).
    destruct (csv_fieldnames all_rows) as [|h t] eqn:E; [contradiction|].
    assert (h = text_of "iter") as ->.
    { apply (@sorted_head_least _ _ _ _ Hs Hin). intros y _ Hy.
      unfold pinned_leb. rewrite Hpi.
      destruct (text_eq_dec y (text_of "method")) as [->|Hm].
      - rewrite Hpm. reflexivity.
      - rewrite (Hpo y Hy Hm). reflexivity. }
    apply StronglySorted_inv in Hs. destruct Hs as [Hs _].
    apply NoDup_cons_iff in Hnd. destruct Hnd as [Hnot _].
    destruct Him as [Him|Him]; [discriminate|].
    destruct t as [|h' t']; [contradiction|].
    assert (h' = text_of "method") as ->.
    { apply (@sorted_head_least _ _ _ _ Hs Him). intros y Hy Hm.
      unfold pinned_leb. rewrite Hpm.
      assert (Hi : y <> text_of "iter") by (intros ->; contradiction).
      rewrite (Hpo y Hi Hm). reflexivity. }
    exists t'. reflexivity.
  - intros Hno.
    assert (Him : In (text_of "method") (csv_fieldnames all_rows))
      by (apply Hmem; right; reflexivity).
    destruct (csv_fieldnames all_rows) as [|h t] eqn:E; [contradiction|].
    assert (h = text_of "method") as ->.
    { apply (@sorted_head_least _ _ _ _ Hs Him). intros y Hy Hm.
      unfold pinned_leb. rewrite Hpm.
      assert (Hi : y <> text_of "iter").
      { intros ->. apply Hmem in Hy. destruct Hy as [Hy|Hy];
          [contradiction | discriminate]. }
      rewrite (Hpo y Hi Hm). reflexivity. }
    exists t. reflexivity.
Qed.
